(** * palettize.py: RadViz palette coordinates, layer by layer

    A shallow embedding of [src/py/palettize.py] and proofs about it.

    Conventions of the embedding.
    - Python floats are idealised as real numbers ([R]): no rounding, no
      overflow, no nan.  The one infinite float the program itself creates,
      [float('inf')] for [points_per_layer], is kept as a constructor of
      [threshold].
    - The program is read as Python 3: [/] on two ints is true division, and
      [**] on a negative float with a fractional exponent yields a complex
      number (it raised ValueError in Python 2).
    - Exceptions are the left summand of [pyres].  OverflowError, which
      [**] and [math.exp] raise on floats out of range, has no counterpart
      in the idealised arithmetic and so none in [pyerr]: that a call
      returns is meant in exact arithmetic.
    - [palette_coords] is a dict keyed by ints: a [gmap Z (list R)]. *)

From Stdlib Require Import Reals Lra Lia ZArith List.
From Stdlib Require Strings.String Strings.Ascii.
From stdpp Require Import gmap list sorting.
Import ListNotations.

Local Open Scope R_scope.

(** ** Exceptions *)

Inductive pyerr : Type :=
  | IndexError
  | ZeroDivisionError
  | TypeError.

Definition pyres (A : Type) : Type := (pyerr + A)%type.

Definition raise {A : Type} (e : pyerr) : pyres A := inl e.
Definition ret {A : Type} (a : A) : pyres A := inr a.

Definition bind {A B : Type} (c : pyres A) (k : A -> pyres B) : pyres B :=
  match c with
  | inl e => inl e
  | inr a => k a
  end.

Notation "'do' x <- c ; k" := (bind c (fun x => k))
  (at level 10, x pattern, c at level 100, k at level 200).

(** [for x in l: acc = body(acc, x)], stopping at the first exception. *)
Fixpoint for_each {A St : Type} (body : St -> A -> pyres St)
    (st : St) (l : list A) : pyres St :=
  match l with
  | [] => ret st
  | x :: l' => do st' <- body st x; for_each body st' l'
  end.

(** A list comprehension [[g(x) for x in l]] whose element expression may
    raise. *)
Fixpoint comprehension {A B : Type} (g : A -> pyres B) (l : list A)
    : pyres (list B) :=
  match l with
  | [] => ret []
  | x :: l' => do y <- g x; do ys <- comprehension g l'; ret (y :: ys)
  end.

(** ** Numbers *)

(** A Python number as this program can meet it: a float, or the complex
    value that [**] produces from a negative base. *)
Inductive pynum : Type :=
  | PyFloat (x : R)
  | PyComplex (re im : R).

(** [math.floor] and the integrality test [iw != floor(iw)] of [float_pow]. *)
Definition floor (y : R) : Z := Int_part y.

Definition is_integral (y : R) : bool :=
  if Req_dec_T (IZR (floor y)) y then true else false.

(** [float.__pow__], finite arguments (CPython's [float_pow], in its order of
    cases). *)
Definition py_pow (x y : R) : pyres pynum :=
  if Req_dec_T y 0 then ret (PyFloat 1)
  else if Req_dec_T x 0 then
    if Rlt_dec y 0 then raise ZeroDivisionError else ret (PyFloat 0)
  else if Rlt_dec x 0 then
    if is_integral y
    then ret (PyFloat (if Z.odd (floor y)
                       then - Rpower (- x) y else Rpower (- x) y))
    else ret (PyComplex (Rpower (- x) y * cos (PI * y))
                        (Rpower (- x) y * sin (PI * y)))
  else ret (PyFloat (Rpower x y)).

(** [a / b] on floats. *)
Definition py_div (a b : R) : pyres R :=
  if Req_dec_T b 0 then raise ZeroDivisionError else ret (a / b).

(** [a * t] with [t] a float. *)
Definition py_mul (a : pynum) (t : R) : pynum :=
  match a with
  | PyFloat x => PyFloat (x * t)
  | PyComplex re im => PyComplex (re * t) (im * t)
  end.

(** [math.fsum]: the sum of floats; a complex element is a TypeError. *)
Fixpoint math_fsum (l : list pynum) : pyres R :=
  match l with
  | [] => ret 0
  | PyFloat x :: l' => do s <- math_fsum l'; ret (x + s)
  | PyComplex _ _ :: _ => raise TypeError
  end.

(** [l[idx]] with Python's negative indices. *)
Definition py_getitem {A : Type} (l : list A) (idx : Z) : pyres A :=
  let n := Z.of_nat (length l) in
  let i := if (idx <? 0)%Z then (idx + n)%Z else idx in
  if ((0 <=? i)%Z && (i <? n)%Z)%bool
  then match nth_error l (Z.to_nat i) with
       | Some a => ret a
       | None => raise IndexError
       end
  else raise IndexError.

(** The indices [l[idx]] accepts for a list of length [n]. *)
Definition valid_index (n : nat) (idx : Z) : Prop :=
  (- Z.of_nat n <= idx < Z.of_nat n)%Z.

(** The position such an index denotes. *)
Definition position (n : nat) (idx : Z) : nat :=
  Z.to_nat (if (idx <? 0)%Z then idx + Z.of_nat n else idx)%Z.

(** ** The preprocessors *)

(** [reverse_normalize(points)]: [f] becomes [1.0 - f]. *)
Definition reverse_normalize (points : list (list R)) : list (list R) :=
  map (fun point => map (fun f => 1 - f) point) points.

(** [scale(points, factor)]: [f] becomes [f**factor]. *)
Definition scale (points : list (list R)) (factor : R)
    : pyres (list (list pynum)) :=
  comprehension
    (fun point => comprehension (fun f => py_pow f factor) point) points.

(** The endpoints [p], [q] and the element expression of [logistic_map]. *)
Definition logistic_p (A : R) : R := 1 / (1 + exp (A / 2)).
Definition logistic_q (A : R) : R := 1 / (1 + exp (- A / 2)).

Definition logistic_elem (A v : R) : pyres R :=
  py_div (1 / (1 + exp (- A * (v - 0.5))) - logistic_p A)
         (logistic_q A - logistic_p A).

Definition logistic_map (points : list (list R)) (A : R)
    : pyres (list (list R)) :=
  comprehension (fun vec => comprehension (logistic_elem A) vec) points.

(** ** The axis set [S] *)

(** [[[cos t, sin t] for t in [2.0*pi*(i/float(m)) for i in range(m)]]];
    each two-element row is a pair.  The division only runs for [i < m], so
    [m] is not zero there. *)
Definition axis_angle (m i : nat) : R := 2 * PI * (INR i / INR m).

Definition axes (m : nat) : list (R * R) :=
  map (fun i => (cos (axis_angle m i), sin (axis_angle m i))) (seq 0 m).

(** [enumerate(S)]. *)
Definition enumerate {A : Type} (l : list A) : list (Z * A) :=
  combine (map Z.of_nat (seq 0 (length l))) l.

(** [math.fsum([f[i] * t[k] for i, t in enumerate(S)])], [k] chosen by
    [coord]. *)
Definition weighted_fsum (f : list pynum) (S : list (R * R))
    (coord : R * R -> R) : pyres R :=
  do terms <- comprehension
                (fun it => do fi <- py_getitem f (fst it);
                           ret (py_mul fi (coord (snd it))))
                (enumerate S);
  math_fsum terms.

(** Lines 72-77 (and 161-166): the normalized (u, v) of one point. *)
Definition uv_normalized (S : list (R * R)) (f : list pynum)
    : pyres (R * R) :=
  do fsum <- math_fsum f;
  if Rlt_dec 0 fsum then
    do su <- weighted_fsum f S fst;
    do u <- py_div su fsum;
    do sv <- weighted_fsum f S snd;
    do v <- py_div sv fsum;
    ret (u, v)
  else ret (0, 0).

(** Lines 115-118: the unnormalized (u, v) of one point. *)
Definition uv_polar (S : list (R * R)) (f : list pynum) : pyres (R * R) :=
  do u <- weighted_fsum f S fst;
  do v <- weighted_fsum f S snd;
  ret (u, v).

(** ** The walk over the layers *)

(** [points_per_layer]: a float, possibly [float('inf')]. *)
Inductive threshold : Type :=
  | Finite (r : R)
  | PosInf.

(** [count >= points_per_layer]. *)
Definition count_reaches (count : Z) (t : threshold) : bool :=
  match t with
  | Finite r => if Rle_dec r (IZR count) then true else false
  | PosInf => false
  end.

(** The variables the two nested loops update. *)
Record walk_state : Type := WalkState {
  palette_coords : gmap Z (list R);
  wl : R;
  wc : R;
  count : Z
}.

(** What the loops only read: everything set up before line 70.  The
    preprocessed points are a value of type [P]: the list of lists itself
    here, its address when the lists live in a store (see below). *)
Record walk_env_of (P : Type) : Type := WalkEnv {
  points_ : P;
  axis_set : list (R * R);
  uv_rule : list (R * R) -> list pynum -> pyres (R * R);
  n_layers : Z;
  n_layers_orig : nat;
  points_per_layer : threshold;
  zgap : R
}.

Arguments WalkEnv {P}.
Arguments points_ {P}.
Arguments axis_set {P}.
Arguments uv_rule {P}.
Arguments n_layers {P}.
Arguments n_layers_orig {P}.
Arguments points_per_layer {P}.
Arguments zgap {P}.

Abbreviation walk_env := (walk_env_of (list (list pynum))).

Definition initial_state : walk_state :=
  {| palette_coords := ∅; wl := 0; wc := 0; count := 0 |}.

(** [n_layers == 0 or n_layers_orig <= n_layers]. *)
Definition use_wl {P : Type} (env : walk_env_of P) : bool :=
  ((n_layers env =? 0)%Z
   || (Z.of_nat (n_layers_orig env) <=? n_layers env)%Z)%bool.

(** The body of the inner loop, for one [idx]. *)
Definition visit (env : walk_env) (st : walk_state) (idx : Z)
    : pyres walk_state :=
  do f <- py_getitem (points_ env) idx;
  do uv <- uv_rule env (axis_set env) f;
  let w := if use_wl env then wl st else wc st in
  let pc := <[idx := [fst uv; snd uv; w]]> (palette_coords st) in
  let count' := (count st + 1)%Z in
  if count_reaches count' (points_per_layer env)
  then ret {| palette_coords := pc; wl := wl st;
              wc := wc st - zgap env; count := 0 |}
  else ret {| palette_coords := pc; wl := wl st;
              wc := wc st; count := count' |}.

(** [for idx in layer: ...]. *)
Definition walk_layer (env : walk_env) (st : walk_state) (layer : list Z)
    : pyres walk_state :=
  for_each (visit env) st layer.

(** [wl = wl - zgap], after a layer. *)
Definition end_layer (env : walk_env) (st : walk_state) : walk_state :=
  {| palette_coords := palette_coords st; wl := wl st - zgap env;
     wc := wc st; count := count st |}.

(** [for layer in layers: ...]. *)
Definition walk_layers (env : walk_env) (st : walk_state)
    (layers : list (list Z)) : pyres walk_state :=
  for_each (fun st layer => do st' <- walk_layer env st layer;
                            ret (end_layer env st'))
           st layers.

(** The state reached when the layers [done_layers] are finished and the
    indices [done_idxs] of the next layer have been visited. *)
Definition walk_upto (env : walk_env) (done_layers : list (list Z))
    (done_idxs : list Z) : pyres walk_state :=
  do st <- walk_layers env initial_state done_layers;
  walk_layer env st done_idxs.

(** ** The three variants *)

(** [len(points_)/n_layers if n_layers > 0 else float('inf')]. *)
Definition points_per_layer_of (n_points : nat) (n_layers : Z) : threshold :=
  if (0 <? n_layers)%Z then Finite (INR n_points / IZR n_layers) else PosInf.

(** Lines 59-69 of [palettize]: everything before the loops. *)
Definition palettize_env (points : list (list R)) (layers : list (list Z))
    (n_layers : Z) (zgap : R) : pyres walk_env :=
  do point0 <- py_getitem points 0;
  let m := length point0 in
  let factor := if (3 <? m)%nat then 2 else 1 in
  do points_ <- scale points factor;
  ret {| points_ := points_; axis_set := axes m;
         uv_rule := uv_normalized; n_layers := n_layers;
         n_layers_orig := length layers;
         points_per_layer := points_per_layer_of (length points_) n_layers;
         zgap := zgap |}.

Definition palettize (points : list (list R)) (layers : list (list Z))
    (n_layers : Z) (zgap : R) : pyres (gmap Z (list R)) :=
  do env <- palettize_env points layers n_layers zgap;
  do st <- walk_layers env initial_state layers;
  ret (palette_coords st).

(** Lines 102-112 of [palettize_polar]. *)
Definition palettize_polar_env (points : list (list R))
    (layers : list (list Z)) (n_layers : Z) (zgap : R) : pyres walk_env :=
  do point0 <- py_getitem points 0;
  let m := length point0 in
  let points_ := reverse_normalize points in
  let factor := if (3 <? m)%nat then 3 else 2 in
  do points_ <- scale points_ factor;
  ret {| points_ := points_; axis_set := axes m;
         uv_rule := uv_polar; n_layers := n_layers;
         n_layers_orig := length layers;
         points_per_layer := points_per_layer_of (length points_) n_layers;
         zgap := zgap |}.

Definition palettize_polar (points : list (list R)) (layers : list (list Z))
    (n_layers : Z) (zgap : R) : pyres (gmap Z (list R)) :=
  do env <- palettize_polar_env points layers n_layers zgap;
  do st <- walk_layers env initial_state layers;
  ret (palette_coords st).

(** Lines 150-158 of [palettize_logistic]; the remapped floats enter the
    walk as [PyFloat]s. *)
Definition palettize_logistic_env (points : list (list R))
    (layers : list (list Z)) (n_layers : Z) (zgap : R) : pyres walk_env :=
  do points_ <- logistic_map points 15;
  do point0 <- py_getitem points_ 0;
  let m := length point0 in
  ret {| points_ := map (map PyFloat) points_; axis_set := axes m;
         uv_rule := uv_normalized; n_layers := n_layers;
         n_layers_orig := length layers;
         points_per_layer := points_per_layer_of (length points_) n_layers;
         zgap := zgap |}.

Definition palettize_logistic (points : list (list R))
    (layers : list (list Z)) (n_layers : Z) (zgap : R)
    : pyres (gmap Z (list R)) :=
  do env <- palettize_logistic_env points layers n_layers zgap;
  do st <- walk_layers env initial_state layers;
  ret (palette_coords st).

(** ** The formulas of the projections, as sums *)

(** The sum of the coordinates. *)
Definition sum_R (l : list R) : R := fold_right Rplus 0 l.

(** The sum over [i < m] of [f_i * trig (2*pi*i/m)], [trig] being [cos] or
    [sin]. *)
Definition radial (trig : R -> R) (m : nat) (f : list R) : R :=
  sum_R (map (fun i => nth i f 0 * trig (2 * PI * INR i / INR m)) (seq 0 m)).

(** ** The count-indexed track, in closed form *)

(** The least whole number of points that reaches [n_points / n_layers]:
    the running counter is reset each time it gets there. *)
Definition bucket_size (n_points : nat) (n_layers : Z) : Z :=
  ((Z.of_nat n_points + n_layers - 1) / n_layers)%Z.

(** The number of visits made before a given one: all of the finished
    layers, and the indices already seen in the current layer. *)
Definition visits_before (done_layers : list (list Z)) (done_idxs : list Z)
    : Z :=
  Z.of_nat (length (concat done_layers) + length done_idxs).

(** ** Invariants of the walk *)

(** An index the inner loop body can process. *)
Definition visitable (env : walk_env) (idx : Z) : Prop :=
  exists f uv,
    py_getitem (points_ env) idx = inr f /\
    uv_rule env (axis_set env) f = inr uv.

(** Every entry of the mapping is the projection of the point its key
    names. *)
Definition projected (env : walk_env) (pc : gmap Z (list R)) : Prop :=
  forall idx e, pc !! idx = Some e ->
    exists f u v w,
      py_getitem (points_ env) idx = inr f /\
      uv_rule env (axis_set env) f = inr (u, v) /\
      e = [u; v; w].

(** After [k] visits the counter is [k mod c] and the count-indexed depth is
    [-(k / c) * zgap], [c] being the bucket size. *)
Definition on_track (env : walk_env) (n_points : nat) (k : Z)
    (st : walk_state) : Prop :=
  let c := bucket_size n_points (n_layers env) in
  (0 <= k)%Z /\ count st = (k mod c)%Z /\
  wc st = - IZR (k / c) * zgap env.

(** ** The modes of the entry point, and well-formed input *)

(** [mode] of the [__main__] block: "default", "polar" or "logistic". *)
Inductive mode : Type :=
  | Default
  | Polar
  | Logistic.

(** The dispatch of lines 200-208, with [zgap] left to the caller. *)
Definition palettize_mode (md : mode) :
    list (list R) -> list (list Z) -> Z -> R -> pyres (gmap Z (list R)) :=
  match md with
  | Default => palettize
  | Polar => palettize_polar
  | Logistic => palettize_logistic
  end.

Definition env_of (md : mode) :
    list (list R) -> list (list Z) -> Z -> R -> pyres walk_env :=
  match md with
  | Default => palettize_env
  | Polar => palettize_polar_env
  | Logistic => palettize_logistic_env
  end.

(** The preconditions of the three functions: a non-empty collection of
    points of one dimensionality [m], and layers of valid indices. *)
Definition well_formed (m : nat) (points : list (list R))
    (layers : list (list Z)) : Prop :=
  points <> [] /\
  Forall (fun point => length point = m) points /\
  Forall (Forall (valid_index (length points))) layers.

(** ** The preprocessing, coordinate by coordinate *)

(** The exponent of the default mode, and of the polar mode. *)
Definition default_power (m : nat) : nat := if (3 <? m)%nat then 2 else 1.
Definition polar_power (m : nat) : nat := if (3 <? m)%nat then 3 else 2.

(** The standard logistic function, and the remap built on it with
    [A = 15.0]. *)
Definition sigma (x : R) : R := 1 / (1 + exp (- x)).

Definition sharpness : R := 15.

Definition remap (v : R) : R :=
  (sigma (sharpness * (v - 0.5)) - sigma (- sharpness / 2))
  / (sigma (sharpness / 2) - sigma (- sharpness / 2)).

Definition preprocessed (md : mode) (m : nat) (x : list R) : list R :=
  match md with
  | Default => map (fun c => c ^ default_power m) x
  | Polar => map (fun c => (1 - c) ^ polar_power m) x
  | Logistic => map remap x
  end.

(** The (u, v) of a preprocessed point [f] of dimensionality [m]. *)
Definition uv_of (md : mode) (m : nat) (f : list R) : R * R :=
  match md with
  | Polar => (radial cos m f, radial sin m f)
  | Default | Logistic =>
      if Rlt_dec 0 (sum_R f)
      then (radial cos m f / sum_R f, radial sin m f / sum_R f)
      else (0, 0)
  end.

(** The environment the loops run in when the input is well formed (see
    [env_of_well_formed]). *)
Definition loop_env (md : mode) (m : nat) (points : list (list R))
    (layers : list (list Z)) (nl : Z) (z : R) : walk_env :=
  {| points_ := map (fun x => map PyFloat (preprocessed md m x)) points;
     axis_set := axes m;
     uv_rule := match md with
                | Polar => uv_polar
                | Default | Logistic => uv_normalized
                end;
     n_layers := nl;
     n_layers_orig := length layers;
     points_per_layer := points_per_layer_of (length points) nl;
     zgap := z |}.

(** * The store: lists as objects

    The functions above treat lists as values.  That is sound only if no
    list the caller can reach is written to: here the same code is embedded
    once more with the lists as objects in a store, [copy.copy] as the
    shallow copy it is, and [append] and item assignment as writes. *)

Definition loc : Type := nat.

(** An item of a list: a number, or a reference to another object. *)
Inductive value : Type :=
  | VNum (x : pynum)
  | VRef (l : loc).

Inductive object : Type :=
  | OList (items : list value)
  | ODict (entries : gmap Z loc).

(** A computation on the store; the store survives an exception. *)
Definition M (A : Type) : Type := gmap loc object -> gmap loc object * pyres A.

Definition h_ret {A : Type} (a : A) : M A := fun h => (h, inr a).

Definition h_bind {A B : Type} (c : M A) (k : A -> M B) : M B :=
  fun h => match c h with
           | (h', inl e) => (h', inl e)
           | (h', inr a) => k a h'
           end.

Notation "'let!' x ':=' c 'in' k" := (h_bind c (fun x => k))
  (at level 10, x pattern, c at level 100, k at level 200).

(** A computation that does not touch the store. *)
Definition lift {A : Type} (r : pyres A) : M A := fun h => (h, r).

(** A new object, at an address not in use. *)
Definition alloc (o : object) : M loc :=
  fun h => let l := fresh (dom h) in (<[l := o]> h, inr l).

(** The items of the list at [l]. *)
Definition read_list (l : loc) : M (list value) :=
  fun h => match h !! l with
           | Some (OList items) => (h, inr items)
           | _ => (h, inl TypeError)
           end.

(** [l.append(v)]: a write to the object at [l]. *)
Definition list_append (l : loc) (v : value) : M unit :=
  fun h => match h !! l with
           | Some (OList items) => (<[l := OList (items ++ [v])]> h, inr tt)
           | _ => (h, inl TypeError)
           end.

(** [l[i] = v], [i] in range: a write to the object at [l]. *)
Definition list_setitem (l : loc) (i : Z) (v : value) : M unit :=
  fun h => match h !! l with
           | Some (OList items) =>
               if ((- Z.of_nat (length items) <=? i)%Z
                   && (i <? Z.of_nat (length items))%Z)%bool
               then (<[l := OList (<[position (length items) i := v]> items)]> h,
                     inr tt)
               else (h, inl IndexError)
           | _ => (h, inl TypeError)
           end.

(** [d[k] = v]: a write to the dict at [d]. *)
Definition dict_setitem (d : loc) (k : Z) (v : loc) : M unit :=
  fun h => match h !! d with
           | Some (ODict entries) => (<[d := ODict (<[k := v]> entries)]> h, inr tt)
           | _ => (h, inl TypeError)
           end.

Fixpoint h_for_each {A St : Type} (body : St -> A -> M St)
    (st : St) (l : list A) : M St :=
  match l with
  | [] => h_ret st
  | x :: l' => let! st' := body st x in h_for_each body st' l'
  end.

(** Items read as what the code expects them to be.  The points of the
    caller hold floats; on anything else the embedding stops with a
    TypeError. *)
Definition as_float (v : value) : pyres R :=
  match v with
  | VNum (PyFloat x) => ret x
  | _ => raise TypeError
  end.

Definition as_num (v : value) : pyres pynum :=
  match v with
  | VNum x => ret x
  | VRef _ => raise TypeError
  end.

Definition as_ref (v : value) : pyres loc :=
  match v with
  | VRef l => ret l
  | VNum _ => raise TypeError
  end.

(** [points_.append([g(f) for f in point])], the loop body of the three
    preprocessors. *)
Definition h_rebuild_row (g : R -> pyres pynum) (points_ : loc)
    (_ : unit) (row : value) : M unit :=
  let! r := lift (as_ref row) in
  let! point := read_list r in
  let! items := lift (comprehension
                        (fun f => do x <- as_float f;
                                  do y <- g x; ret (VNum y))
                        point) in
  let! new := alloc (OList items) in
  list_append points_ (VRef new).

(** [points_ = []; for point in points: ...; return points_], the shape of
    the three preprocessors. *)
Definition h_rebuild (g : R -> pyres pynum) (points : loc) : M loc :=
  let! points_ := alloc (OList []) in
  let! rows := read_list points in
  let! _ := h_for_each (h_rebuild_row g points_) tt rows in
  h_ret points_.

Definition h_reverse_normalize (points : loc) : M loc :=
  h_rebuild (fun f => ret (PyFloat (1 - f))) points.

Definition h_scale (points : loc) (factor : R) : M loc :=
  h_rebuild (fun f => py_pow f factor) points.

Definition h_logistic_map (points : loc) (A : R) : M loc :=
  h_rebuild (fun v => do y <- logistic_elem A v; ret (PyFloat y)) points.

(** [copy.copy(points)]: a new outer list holding the same references. *)
Definition h_copy (points : loc) : M loc :=
  let! rows := read_list points in alloc (OList rows).

(** [swap_columns(points, cols)], which no variant calls: the copy is
    shallow, so the item assignments land in the caller's rows. *)
Definition h_swap_columns (points : loc) (c0 c1 : Z) : M loc :=
  let! points_ := h_copy points in
  let! rows := read_list points_ in
  let! _ := h_for_each
              (fun (_ : unit) row =>
                 let! r := lift (as_ref row) in
                 let! point := read_list r in
                 let! swap := lift (py_getitem point c0) in
                 let! other := lift (py_getitem point c1) in
                 let! _ := list_setitem r c0 other in
                 list_setitem r c1 swap)
              tt rows in
  h_ret points_.

(** [len(points_[0])]. *)
Definition h_dimension (points_ : loc) : M nat :=
  let! rows := read_list points_ in
  let! row0 := lift (py_getitem rows 0) in
  let! r0 := lift (as_ref row0) in
  let! point0 := read_list r0 in
  h_ret (length point0).

(** The body of the inner loop on the store: [points_ env] is the address
    of the preprocessed points, [palette] that of the dict. *)
Definition h_visit (env : walk_env_of loc) (palette : loc)
    (st : R * R * Z) (idx : Z) : M (R * R * Z) :=
  let '(wl, wc, count) := st in
  let! rows := read_list (points_ env) in
  let! row := lift (py_getitem rows idx) in
  let! r := lift (as_ref row) in
  let! items := read_list r in
  let! f := lift (comprehension as_num items) in
  let! uv := lift (uv_rule env (axis_set env) f) in
  let w := if use_wl env then wl else wc in
  let! entry := alloc (OList [VNum (PyFloat (fst uv)); VNum (PyFloat (snd uv));
                              VNum (PyFloat w)]) in
  let! _ := dict_setitem palette idx entry in
  let count' := (count + 1)%Z in
  if count_reaches count' (points_per_layer env)
  then h_ret (wl, wc - zgap env, 0%Z)
  else h_ret (wl, wc, count').

(** Lines 68-88: the dict, the two loops, the return. *)
Definition h_walk (env : walk_env_of loc) (layers : list (list Z)) : M loc :=
  let! palette := alloc (ODict ∅) in
  let! _ := h_for_each
              (fun st layer =>
                 let! st' := h_for_each (h_visit env palette) st layer in
                 let '(wl, wc, count) := st' in
                 h_ret (wl - zgap env, wc, count))
              (0, 0, 0%Z) layers in
  h_ret palette.

(** [len(points_)]. *)
Definition h_len (l : loc) : M nat :=
  let! rows := read_list l in h_ret (length rows).

Definition h_palettize (points : loc) (layers : list (list Z))
    (n_layers : Z) (zgap : R) : M loc :=
  let! points_ := h_copy points in
  let! m := h_dimension points_ in
  let factor := if (3 <? m)%nat then 2 else 1 in
  let! points_ := h_scale points_ factor in
  let! n := h_len points_ in
  h_walk {| points_ := points_; axis_set := axes m;
            uv_rule := uv_normalized; n_layers := n_layers;
            n_layers_orig := length layers;
            points_per_layer := points_per_layer_of n n_layers;
            zgap := zgap |}
         layers.

Definition h_palettize_polar (points : loc) (layers : list (list Z))
    (n_layers : Z) (zgap : R) : M loc :=
  let! m := h_dimension points in
  let! points_ := h_copy points in
  let! points_ := h_reverse_normalize points_ in
  let factor := if (3 <? m)%nat then 3 else 2 in
  let! points_ := h_scale points_ factor in
  let! n := h_len points_ in
  h_walk {| points_ := points_; axis_set := axes m;
            uv_rule := uv_polar; n_layers := n_layers;
            n_layers_orig := length layers;
            points_per_layer := points_per_layer_of n n_layers;
            zgap := zgap |}
         layers.

Definition h_palettize_logistic (points : loc) (layers : list (list Z))
    (n_layers : Z) (zgap : R) : M loc :=
  let! points_ := h_copy points in
  let! points_ := h_logistic_map points_ 15 in
  let! m := h_dimension points_ in
  let! n := h_len points_ in
  h_walk {| points_ := points_; axis_set := axes m;
            uv_rule := uv_normalized; n_layers := n_layers;
            n_layers_orig := length layers;
            points_per_layer := points_per_layer_of n n_layers;
            zgap := zgap |}
         layers.

Definition h_palettize_mode (md : mode) :
    loc -> list (list Z) -> Z -> R -> M loc :=
  match md with
  | Default => h_palettize
  | Polar => h_palettize_polar
  | Logistic => h_palettize_logistic
  end.

(** ** Specifications on the store *)

(** Every object of [h0] is still there in [h], unchanged. *)
Definition keeps (h0 h : gmap loc object) : Prop :=
  forall l o, h0 !! l = Some o -> h !! l = Some o.

(** Started in a store that keeps [h0] and satisfies [P], the computation
    ends, with a result or an exception, in a store that keeps [h0]; a
    result [a] and the final store satisfy [Q]. *)
Definition triple {A : Type} (h0 : gmap loc object)
    (P : gmap loc object -> Prop) (c : M A)
    (Q : A -> gmap loc object -> Prop) : Prop :=
  forall h, keeps h0 h -> P h ->
    keeps h0 (fst (c h)) /\
    forall a, snd (c h) = inr a -> Q a (fst (c h)).

(** The object at [l] is a list of references, none to an object of
    [h0]. *)
Definition fresh_rows (h0 : gmap loc object) (l : loc)
    (h : gmap loc object) : Prop :=
  (l ∉ dom h0) /\
  exists items,
    h !! l = Some (OList items) /\
    Forall (fun v => exists r, v = VRef r /\ r ∉ dom h0) items.

(** The object at [r] is the row [y]. *)
Definition row_of (h : gmap loc object) (r : loc) (y : list pynum) : Prop :=
  h !! r = Some (OList (map VNum y)).

(** The store holds the collection [rows] at [p]: an outer list of
    references to the rows. *)
Definition stored_nums (h : gmap loc object) (p : loc)
    (rows : list (list pynum)) : Prop :=
  exists rs,
    h !! p = Some (OList (map VRef rs)) /\ Forall2 (row_of h) rs rows.

(** The same for a collection of floats, as the caller supplies it. *)
Definition stored (h : gmap loc object) (p : loc) (pts : list (list R))
    : Prop :=
  stored_nums h p (map (map PyFloat) pts).

(** A small store: the collection [[1.0, 2.0]] at address 0, its one row
    at address 1. *)
Definition sample_store : gmap loc object :=
  <[0%nat := OList [VRef 1%nat]]>
    (<[1%nat := OList [VNum (PyFloat 1); VNum (PyFloat 2)]]> ∅).

(** * Writing the palette

    [save_palette] is embedded by what it writes: the sequence of the
    strings passed to [fp.write], one per key.  Opening and closing the
    file are left out, and ["{0:.4f}".format], which has no counterpart on
    the reals, is a parameter. *)

Definition tab : String.string :=
  String.String (Ascii.ascii_of_nat 9) String.EmptyString.

Definition newline : String.string :=
  String.String (Ascii.ascii_of_nat 10) String.EmptyString.

(** ["\t".join(["{0:.4f}".format(v) for v in entry]) + "\n"]. *)
Definition palette_line (format_4f : R -> String.string) (entry : list R)
    : String.string :=
  String.append (String.concat tab (map format_4f entry)) newline.

(** [sorted(palette_coords.keys())]. *)
Definition sorted_keys (palette_coords : gmap Z (list R)) : list Z :=
  merge_sort Z.le (elements (dom palette_coords)).

(** The writes of [save_palette], in order.  [palette_coords[i]] is read
    for keys of the dict only, so the lookup has a value; [[]] stands for
    the KeyError that cannot happen. *)
Definition save_palette (format_4f : R -> String.string)
    (palette_coords : gmap Z (list R)) : list String.string :=
  map (fun i => palette_line format_4f (default [] (palette_coords !! i)))
      (sorted_keys palette_coords).

(** ** [swap_columns], row by row *)

(** A row after [point[c0], point[c1] = point[c1], point[c0]]. *)
Definition swap_items {A : Type} (c0 c1 : Z) (y : list A) : list A :=
  match nth_error y (position (length y) c0),
        nth_error y (position (length y) c1) with
  | Some a0, Some a1 =>
      <[position (length y) c1 := a0]> (<[position (length y) c0 := a1]> y)
  | _, _ => y
  end.

(** The loop body of [swap_columns]. *)
Definition h_swap_row (c0 c1 : Z) (_ : unit) (row : value) : M unit :=
  let! r := lift (as_ref row) in
  let! point := read_list r in
  let! swap := lift (py_getitem point c0) in
  let! other := lift (py_getitem point c1) in
  let! _ := list_setitem r c0 other in
  list_setitem r c1 swap.

(** * Properties *)

(** ** Exceptions, loops and comprehensions *)

Lemma bind_inr {A B : Type} (c : pyres A) (k : A -> pyres B) (b : B) :
  bind c k = inr b <-> exists a, c = inr a /\ k a = inr b.
Proof.
  destruct c as [e | a]; simpl; split.
  - discriminate.
  - intros (a & Ha & _). discriminate.
  - eauto.
  - intros (a' & Ha & Hk). congruence.
Qed.

Lemma for_each_app {A St : Type} (body : St -> A -> pyres St) l1 l2 st :
  for_each body st (l1 ++ l2) =
  bind (for_each body st l1) (fun st' => for_each body st' l2).
Proof.
  revert st. induction l1 as [| x l1 IH]; intros st; simpl; [reflexivity |].
  destruct (body st x) as [e | st']; simpl; [reflexivity | apply IH].
Qed.

Lemma comprehension_total {A B : Type} (g : A -> pyres B) (g' : A -> B) l :
  Forall (fun x => g x = inr (g' x)) l ->
  comprehension g l = inr (map g' l).
Proof.
  induction 1 as [| x l Hx _ IH]; simpl; [reflexivity |].
  rewrite Hx, IH. reflexivity.
Qed.

Lemma comprehension_inr {A B : Type} (g : A -> pyres B) l ys :
  comprehension g l = inr ys <-> Forall2 (fun x y => g x = inr y) l ys.
Proof.
  revert ys. induction l as [| x l IH]; intros ys; simpl.
  - split.
    + intros [= <-]. constructor.
    + intros H. inversion H. reflexivity.
  - split.
    + intros H. apply bind_inr in H as (y & Hy & H).
      apply bind_inr in H as (ys' & Hys & [= <-]).
      constructor; [exact Hy | apply IH, Hys].
    + intros H. inversion H as [| ? y ? ys' Hy Hys]; subst.
      rewrite Hy. simpl. apply IH in Hys. rewrite Hys. reflexivity.
Qed.

(** ** Indexing *)

Lemma py_getitem_inr {A : Type} (l : list A) idx a :
  py_getitem l idx = inr a <->
  valid_index (length l) idx /\ nth_error l (position (length l) idx) = Some a.
Proof.
  unfold py_getitem, valid_index, position.
  destruct (idx <? 0)%Z eqn:Hneg;
    [apply Z.ltb_lt in Hneg | apply Z.ltb_ge in Hneg];
    match goal with |- context [(?a <=? ?b)%Z && (?c <? ?d)%Z] =>
      destruct (Z.leb_spec a b); destruct (Z.ltb_spec c d); simpl
    end;
    try (split; [discriminate | intros [? _]; lia]);
    (destruct (nth_error l _) as [a' |] eqn:Hnth; split;
      [ intros [= <-]; split; [lia | reflexivity]
      | intros [_ [= <-]]; reflexivity
      | discriminate
      | intros [_ ?]; discriminate ]).
Qed.

Lemma py_getitem_valid {A : Type} (l : list A) idx :
  valid_index (length l) idx -> exists a, py_getitem l idx = inr a.
Proof.
  intros Hv.
  destruct (nth_error l (position (length l) idx)) as [a |] eqn:Hnth.
  - exists a. apply py_getitem_inr. split; assumption.
  - apply nth_error_None in Hnth. unfold valid_index, position in *.
    destruct (idx <? 0)%Z eqn:Hneg;
      [apply Z.ltb_lt in Hneg | apply Z.ltb_ge in Hneg]; lia.
Qed.

Lemma py_getitem_nat {A : Type} (l : list A) (i : nat) a :
  nth_error l i = Some a -> py_getitem l (Z.of_nat i) = inr a.
Proof.
  intros Hnth. apply py_getitem_inr.
  assert (i < length l)%nat by (apply nth_error_Some; congruence).
  unfold valid_index, position.
  destruct (Z.ltb_spec (Z.of_nat i) 0); [lia |].
  rewrite Nat2Z.id. split; [lia | exact Hnth].
Qed.

Lemma py_getitem_map {A B : Type} (g : A -> B) (l : list A) idx a :
  py_getitem l idx = inr a -> py_getitem (map g l) idx = inr (g a).
Proof.
  rewrite !py_getitem_inr, length_map. intros [Hv Hnth].
  split; [exact Hv |]. rewrite nth_error_map, Hnth. reflexivity.
Qed.

(** ** Powers *)

Lemma floor_IZR (z : Z) : floor (IZR z) = z.
Proof. unfold floor. symmetry. apply Int_part_spec. lra. Qed.

Lemma is_integral_IZR (z : Z) : is_integral (IZR z) = true.
Proof.
  unfold is_integral. rewrite floor_IZR.
  destruct (Req_dec_T (IZR z) (IZR z)); congruence.
Qed.

Lemma is_integral_true (y : R) :
  is_integral y = true <-> exists z : Z, y = IZR z.
Proof.
  split.
  - unfold is_integral. destruct (Req_dec_T _ y) as [E | _]; [| discriminate].
    intros _. exists (floor y). congruence.
  - intros [z ->]. apply is_integral_IZR.
Qed.

(** [x ** n] for a positive integral float exponent [n] is the [n]-fold
    product, whatever the sign of [x]. *)
Lemma py_pow_nat (x : R) (n : nat) :
  (0 < n)%nat -> py_pow x (INR n) = inr (PyFloat (x ^ n)).
Proof.
  intros Hn. unfold py_pow.
  assert (Hpos : 0 < INR n) by (apply lt_0_INR; lia).
  destruct (Req_dec_T (INR n) 0) as [E | _]; [lra |].
  destruct (Req_dec_T x 0) as [-> | Hx0].
  - destruct (Rlt_dec (INR n) 0); [lra |].
    rewrite pow_i by lia. reflexivity.
  - destruct (Rlt_dec x 0) as [Hneg | Hnneg].
    + rewrite INR_IZR_INZ, is_integral_IZR, floor_IZR, <- INR_IZR_INZ.
      rewrite Rpower_pow by lra. unfold ret. do 2 f_equal.
      destruct (Nat.Even_or_Odd n) as [[k ->] | [k ->]].
      * replace (Z.of_nat (2 * k)) with (0 + 2 * Z.of_nat k)%Z by lia.
        rewrite Z.odd_add_mul_2. simpl Z.odd. cbv iota.
        rewrite !pow_Rsqr, <- Rsqr_neg. reflexivity.
      * replace (Z.of_nat (2 * k + 1)) with (1 + 2 * Z.of_nat k)%Z by lia.
        rewrite Z.odd_add_mul_2. simpl Z.odd. cbv iota.
        rewrite Nat.add_1_r, <- !tech_pow_Rmult, !pow_Rsqr.
        rewrite <- Rsqr_neg. ring.
    + rewrite Rpower_pow by lra. reflexivity.
Qed.

Lemma py_pow_1 (x : R) : py_pow x 1 = inr (PyFloat x).
Proof.
  change 1 with (INR 1). rewrite py_pow_nat by lia.
  rewrite pow_1. reflexivity.
Qed.

Lemma py_pow_2 (x : R) : py_pow x 2 = inr (PyFloat (x ^ 2)).
Proof.
  replace 2 with (INR 2) by (simpl; lra). apply py_pow_nat. lia.
Qed.

Lemma py_pow_3 (x : R) : py_pow x 3 = inr (PyFloat (x ^ 3)).
Proof.
  replace 3 with (INR 3) by (simpl; lra). apply py_pow_nat. lia.
Qed.

(** [scale] with a positive integral factor never raises and yields floats. *)
Lemma scale_nat (points : list (list R)) (n : nat) :
  (0 < n)%nat ->
  scale points (INR n) = inr (map (map (fun f => PyFloat (f ^ n))) points).
Proof.
  intros Hn. unfold scale.
  apply comprehension_total, Forall_forall. intros point _.
  apply comprehension_total, Forall_forall. intros f _.
  apply py_pow_nat, Hn.
Qed.

(** ** Sums over a point *)

Lemma math_fsum_floats (x : list R) :
  math_fsum (map PyFloat x) = inr (sum_R x).
Proof.
  induction x as [| a x IH]; simpl; [reflexivity |].
  rewrite IH. reflexivity.
Qed.

Lemma math_fsum_inr (f : list pynum) (s : R) :
  math_fsum f = inr s -> exists x, f = map PyFloat x /\ s = sum_R x.
Proof.
  revert s. induction f as [| [a | re im] f IH]; intros s; simpl.
  - intros [= <-]. exists []. split; reflexivity.
  - intros H. apply bind_inr in H as (s' & Hs' & [= <-]).
    destruct (IH s' Hs') as (x & -> & ->).
    exists (a :: x). split; reflexivity.
  - discriminate.
Qed.

Lemma enumerate_from {A : Type} (d : A) (l : list A) (a : nat) :
  combine (map Z.of_nat (seq a (length l))) l =
  map (fun i => (Z.of_nat i, nth (i - a) l d)) (seq a (length l)).
Proof.
  revert a. induction l as [| y l IH]; intros a; simpl; [reflexivity |].
  rewrite Nat.sub_diag. f_equal. rewrite IH.
  apply map_ext_in. intros i Hi. apply in_seq in Hi.
  replace (i - a)%nat with (Datatypes.S (i - Datatypes.S a)) by lia.
  reflexivity.
Qed.

Lemma enumerate_nth {A : Type} (d : A) (l : list A) :
  enumerate l = map (fun i => (Z.of_nat i, nth i l d)) (seq 0 (length l)).
Proof.
  unfold enumerate. rewrite (enumerate_from d).
  apply map_ext. intros i. rewrite Nat.sub_0_r. reflexivity.
Qed.

(** On a point made of floats and at least as long as [S], the weighted sum
    is the sum of the products. *)
Lemma weighted_fsum_floats (x : list R) (S : list (R * R)) coord :
  (length S <= length x)%nat ->
  weighted_fsum (map PyFloat x) S coord =
  inr (sum_R (map (fun i => nth i x 0 * coord (nth i S (0, 0)))
                  (seq 0 (length S)))).
Proof.
  intros Hlen. unfold weighted_fsum. rewrite (enumerate_nth (0, 0)).
  rewrite (comprehension_total _
             (fun it => PyFloat (nth (Z.to_nat (fst it)) x 0 * coord (snd it)))).
  - simpl. rewrite <- math_fsum_floats, !map_map. f_equal.
    apply map_ext. intros i. simpl. rewrite Nat2Z.id. reflexivity.
  - apply List.Forall_forall. intros [k t] Hin. apply in_map_iff in Hin.
    destruct Hin as (i & [= <- <-] & Hi). apply in_seq in Hi. simpl.
    rewrite (py_getitem_nat _ i (PyFloat (nth i x 0)))
      by (rewrite nth_error_map, (nth_error_nth' x 0) by lia; reflexivity).
    simpl. rewrite Nat2Z.id. reflexivity.
Qed.

Lemma length_axes (m : nat) : length (axes m) = m.
Proof. unfold axes. rewrite length_map, length_seq. reflexivity. Qed.

Lemma nth_axes (m i : nat) :
  (i < m)%nat ->
  nth i (axes m) (0, 0) = (cos (axis_angle m i), sin (axis_angle m i)).
Proof.
  intros Hi. unfold axes. apply nth_error_nth.
  rewrite nth_error_map, (nth_error_nth' (seq 0 m) 0%nat)
    by (rewrite length_seq; exact Hi).
  rewrite seq_nth by exact Hi. reflexivity.
Qed.

Lemma axis_angle_eq (m i : nat) : axis_angle m i = 2 * PI * INR i / INR m.
Proof. unfold axis_angle, Rdiv. ring. Qed.

Lemma weighted_fsum_axes (x : list R) (m : nat) :
  (m <= length x)%nat ->
  weighted_fsum (map PyFloat x) (axes m) fst = inr (radial cos m x) /\
  weighted_fsum (map PyFloat x) (axes m) snd = inr (radial sin m x).
Proof.
  intros Hlen.
  rewrite !weighted_fsum_floats by (rewrite length_axes; exact Hlen).
  rewrite length_axes. unfold radial.
  split; do 2 f_equal; apply map_ext_in; intros i Hi; apply in_seq in Hi;
    rewrite nth_axes, axis_angle_eq by lia; reflexivity.
Qed.

(** The normalized rule on a point of floats. *)
Lemma uv_normalized_axes (x : list R) (m : nat) :
  (m <= length x)%nat ->
  uv_normalized (axes m) (map PyFloat x) =
  inr (if Rlt_dec 0 (sum_R x)
       then (radial cos m x / sum_R x, radial sin m x / sum_R x)
       else (0, 0)).
Proof.
  intros Hlen. unfold uv_normalized. rewrite math_fsum_floats. simpl.
  destruct (Rlt_dec 0 (sum_R x)) as [Hpos | Hnpos]; [| reflexivity].
  destruct (weighted_fsum_axes x m Hlen) as [-> ->]. simpl.
  unfold py_div. destruct (Req_dec_T (sum_R x) 0); [lra |]. reflexivity.
Qed.

(** The normalized rule never raises, and yields (0, 0), on a point whose
    sum is not positive: the axis set and the length of the point play no
    part. *)
Lemma uv_normalized_nonpos (S : list (R * R)) (f : list pynum) (s : R) :
  math_fsum f = inr s -> s <= 0 -> uv_normalized S f = inr (0, 0).
Proof.
  intros Hs Hle. unfold uv_normalized. rewrite Hs. simpl.
  destruct (Rlt_dec 0 s); [lra | reflexivity].
Qed.

(** The polar rule on a point of floats. *)
Lemma uv_polar_axes (x : list R) (m : nat) :
  (m <= length x)%nat ->
  uv_polar (axes m) (map PyFloat x) = inr (radial cos m x, radial sin m x).
Proof.
  intros Hlen. unfold uv_polar.
  destruct (weighted_fsum_axes x m Hlen) as [-> ->]. reflexivity.
Qed.

(** ** One visit *)

Section Walk.

Variable env : walk_env.

(** The [w] a visit writes, the track being chosen by [use_wl]. *)
Lemma visit_inr (st st' : walk_state) (idx : Z) :
  visit env st idx = inr st' ->
  exists f u v,
    py_getitem (points_ env) idx = inr f /\
    uv_rule env (axis_set env) f = inr (u, v) /\
    palette_coords st' =
      <[idx := [u; v; if use_wl env then wl st else wc st]]>
        (palette_coords st) /\
    wl st' = wl st /\
    wc st' = (if count_reaches (count st + 1) (points_per_layer env)
              then wc st - zgap env else wc st) /\
    count st' = (if count_reaches (count st + 1) (points_per_layer env)
                 then 0 else count st + 1)%Z.
Proof.
  unfold visit. intros H.
  apply bind_inr in H as (f & Hf & H).
  apply bind_inr in H as ([u v] & Huv & H).
  exists f, u, v. simpl in H.
  destruct (count_reaches _ _); injection H as <-; simpl; auto 10.
Qed.

Lemma visit_total (st : walk_state) (idx : Z) f uv :
  py_getitem (points_ env) idx = inr f ->
  uv_rule env (axis_set env) f = inr uv ->
  exists st', visit env st idx = inr st'.
Proof.
  intros Hf Huv. unfold visit. rewrite Hf. simpl. rewrite Huv. simpl.
  destruct (count_reaches _ _); eauto.
Qed.

(** ** One layer *)

Lemma walk_layer_snoc (st : walk_state) (l : list Z) (idx : Z) :
  walk_layer env st (l ++ [idx]) =
  bind (walk_layer env st l) (fun st' => visit env st' idx).
Proof.
  unfold walk_layer. rewrite for_each_app. destruct (for_each _ st l);
    simpl; [reflexivity |]. destruct (visit env _ idx); reflexivity.
Qed.

Lemma walk_layer_total (st : walk_state) (layer : list Z) :
  Forall (visitable env) layer -> exists st', walk_layer env st layer = inr st'.
Proof.
  intros Hall. revert st.
  induction Hall as [| idx layer (f & uv & Hf & Huv) _ IH]; intros st.
  - exists st. reflexivity.
  - destruct (visit_total st idx f uv Hf Huv) as [st1 H1].
    destruct (IH st1) as [st' H']. exists st'.
    unfold walk_layer in *. simpl. rewrite H1. exact H'.
Qed.

Lemma walk_layer_inv (st st' : walk_state) (layer : list Z) :
  walk_layer env st layer = inr st' ->
  wl st' = wl st /\
  dom (palette_coords st') = dom (palette_coords st) ∪ list_to_set layer /\
  (forall idx, idx ∉ layer ->
     palette_coords st' !! idx = palette_coords st !! idx) /\
  (projected env (palette_coords st) -> projected env (palette_coords st')) /\
  Forall (visitable env) layer.
Proof.
  unfold walk_layer. revert st.
  induction layer as [| i layer IH]; intros st; simpl.
  - intros [= <-]. repeat split; auto. set_solver.
  - intros H. apply bind_inr in H as (st1 & H1 & H).
    destruct (IH _ H) as (Hwl & Hdom & Hother & Hproj & Hvis).
    destruct (visit_inr _ _ _ H1) as (f & u & v & Hf & Huv & Hpc & Hwl1 & _).
    repeat split.
    + congruence.
    + rewrite Hdom, Hpc, dom_insert_L. set_solver.
    + intros idx Hidx. rewrite Hother, Hpc by set_solver.
      apply lookup_insert_ne. set_solver.
    + intros Hp. apply Hproj. intros idx e. rewrite Hpc.
      destruct (decide (i = idx)) as [<- | Hne].
      * rewrite lookup_insert_eq. intros [= <-]. eauto 10.
      * rewrite lookup_insert_ne by exact Hne. apply Hp.
    + constructor; [| exact Hvis]. exists f, (u, v). auto.
Qed.

(** ** All layers *)

Lemma walk_layers_cons (st : walk_state) layer layers :
  walk_layers env st (layer :: layers) =
  bind (walk_layer env st layer)
       (fun st' => walk_layers env (end_layer env st') layers).
Proof.
  unfold walk_layers. simpl. destruct (walk_layer env st layer); reflexivity.
Qed.

Lemma walk_layers_app (st : walk_state) l1 l2 :
  walk_layers env st (l1 ++ l2) =
  bind (walk_layers env st l1) (fun st' => walk_layers env st' l2).
Proof. apply for_each_app. Qed.

Lemma walk_layers_total (st : walk_state) (layers : list (list Z)) :
  Forall (Forall (visitable env)) layers ->
  exists st', walk_layers env st layers = inr st'.
Proof.
  intros Hall. revert st. induction Hall as [| layer layers Hl _ IH];
    intros st.
  - exists st. reflexivity.
  - destruct (walk_layer_total st layer Hl) as [st1 H1].
    destruct (IH (end_layer env st1)) as [st' H']. exists st'.
    rewrite walk_layers_cons, H1. exact H'.
Qed.

Lemma walk_layers_inv (st st' : walk_state) (layers : list (list Z)) :
  walk_layers env st layers = inr st' ->
  wl st' = wl st - INR (length layers) * zgap env /\
  dom (palette_coords st') =
    dom (palette_coords st) ∪ list_to_set (concat layers) /\
  (forall idx, idx ∉ concat layers ->
     palette_coords st' !! idx = palette_coords st !! idx) /\
  (projected env (palette_coords st) -> projected env (palette_coords st')) /\
  Forall (Forall (visitable env)) layers.
Proof.
  revert st. induction layers as [| layer layers IH]; intros st.
  - intros [= <-]. simpl. repeat split; auto; [lra | set_solver].
  - rewrite walk_layers_cons. intros H.
    apply bind_inr in H as (st1 & H1 & H).
    destruct (walk_layer_inv _ _ _ H1) as (Hwl1 & Hdom1 & Hoth1 & Hpr1 & Hv1).
    destruct (IH _ H) as (Hwl & Hdom & Hoth & Hpr & Hv).
    simpl in Hwl, Hdom, Hoth, Hpr. repeat split.
    + rewrite Hwl, Hwl1. change (length (layer :: layers))
        with (Datatypes.S (length layers)). rewrite S_INR. lra.
    + rewrite Hdom, Hdom1. simpl. rewrite list_to_set_app_L. set_solver.
    + intros idx Hidx. simpl in Hidx. rewrite Hoth, Hoth1; set_solver.
    + auto.
    + constructor; assumption.
Qed.

(** The walk, cut at one visit: the layers before, the indices before it in
    its layer, the visit, and the rest. *)
Lemma walk_layers_split (st stf : walk_state) pre l1 idx l2 post :
  walk_layers env st (pre ++ (l1 ++ idx :: l2) :: post) = inr stf ->
  exists st0 st1 st2 st3,
    walk_layers env st pre = inr st0 /\
    walk_layer env st0 l1 = inr st1 /\
    visit env st1 idx = inr st2 /\
    walk_layer env st2 l2 = inr st3 /\
    walk_layers env (end_layer env st3) post = inr stf.
Proof.
  rewrite walk_layers_app. intros H.
  apply bind_inr in H as (st0 & H0 & H).
  rewrite walk_layers_cons in H. apply bind_inr in H as (st3 & H3 & H).
  unfold walk_layer in H3. rewrite for_each_app in H3.
  apply bind_inr in H3 as (st1 & H1 & H3). simpl in H3.
  apply bind_inr in H3 as (st2 & H2 & H3).
  exists st0, st1, st2, st3. auto.
Qed.

End Walk.

(** ** The running counter and the count-indexed depth *)

Lemma count_reaches_bucket (n_points : nat) (nl k : Z) :
  (0 < nl)%Z ->
  count_reaches k (points_per_layer_of n_points nl) = true <->
  (bucket_size n_points nl <= k)%Z.
Proof.
  intros Hnl. unfold points_per_layer_of, bucket_size, count_reaches.
  destruct (Z.ltb_spec 0 nl) as [_ | ?]; [| lia].
  assert (Hr : 0 < IZR nl) by (apply IZR_lt; exact Hnl).
  assert (Hiff : INR n_points / IZR nl <= IZR k <->
                 (Z.of_nat n_points <= k * nl)%Z).
  { rewrite INR_IZR_INZ. split.
    - intros H. apply le_IZR. rewrite mult_IZR.
      apply (Rmult_le_compat_r (IZR nl)) in H; [| lra].
      unfold Rdiv in H. rewrite Rmult_assoc, Rinv_l, Rmult_1_r in H; lra.
    - intros H. apply IZR_le in H. rewrite mult_IZR in H.
      apply (Rmult_le_reg_r (IZR nl)); [exact Hr |].
      unfold Rdiv. rewrite Rmult_assoc, Rinv_l, Rmult_1_r; lra. }
  destruct (Rle_dec _ _) as [Hle | Hnle].
  - split; [intros _ | reflexivity]. apply Hiff in Hle.
    apply Z.lt_succ_r, Z.div_lt_upper_bound; lia.
  - split; [discriminate |]. intros Hb. exfalso. apply Hnle, Hiff.
    pose proof (Z.mul_div_le (Z.of_nat n_points + nl - 1) nl Hnl).
    pose proof (Z.mod_pos_bound (Z.of_nat n_points + nl - 1) nl Hnl).
    pose proof (Z.div_mod (Z.of_nat n_points + nl - 1) nl).
    nia.
Qed.

Lemma bucket_size_pos (n_points : nat) (nl : Z) :
  (0 < nl)%Z -> (0 < n_points)%nat -> (0 < bucket_size n_points nl)%Z.
Proof.
  intros Hnl Hn. unfold bucket_size. apply Z.div_str_pos. lia.
Qed.

Section Track.

Variable env : walk_env.
Variable n_points : nat.
Hypothesis Hnl : (0 < n_layers env)%Z.
Hypothesis Hpoints : (0 < n_points)%nat.
Hypothesis Hppl :
  points_per_layer env = points_per_layer_of n_points (n_layers env).

Let c : Z := bucket_size n_points (n_layers env).

Lemma initial_on_track : on_track env n_points 0 initial_state.
Proof.
  unfold on_track. simpl. rewrite Zmod_0_l, Zdiv_0_l.
  repeat split; [lia | lra].
Qed.

Lemma visit_on_track (st st' : walk_state) (idx k : Z) :
  visit env st idx = inr st' ->
  on_track env n_points k st -> on_track env n_points (k + 1) st'.
Proof.
  unfold on_track. cbv zeta. fold c. intros Hv (Hk & Hcount & Hwc).
  destruct (visit_inr _ _ _ _ Hv) as (_ & _ & _ & _ & _ & _ & _ & Hwc' & Hc').
  pose proof (bucket_size_pos n_points (n_layers env) Hnl Hpoints) as Hc.
  fold c in Hc.
  pose proof (count_reaches_bucket n_points (n_layers env) (count st + 1) Hnl)
    as Hreach.
  rewrite <- Hppl in Hreach. fold c in Hreach.
  pose proof (Z.mod_pos_bound k c Hc) as Hmod.
  pose proof (Z.div_mod k c) as Hdm.
  destruct (count_reaches _ _).
  - assert (Hc1 : (c <= count st + 1)%Z) by (apply Hreach; reflexivity).
    assert (Hq : ((k + 1) / c = k / c + 1)%Z).
    { symmetry. apply (Z.div_unique _ _ _ 0); lia. }
    assert (Hm : ((k + 1) mod c = 0)%Z).
    { symmetry. apply (Z.mod_unique _ _ (k / c + 1)); lia. }
    repeat split; [lia | congruence |].
    rewrite Hwc', Hwc, Hq, plus_IZR. lra.
  - assert (Hc1 : (count st + 1 < c)%Z).
    { destruct (Z.le_gt_cases c (count st + 1)) as [Hle | Hlt]; [| lia].
      apply Hreach in Hle. discriminate. }
    assert (Hq : ((k + 1) / c = k / c)%Z).
    { symmetry. apply (Z.div_unique _ _ _ (k mod c + 1)); lia. }
    assert (Hm : ((k + 1) mod c = k mod c + 1)%Z).
    { symmetry. apply (Z.mod_unique _ _ (k / c)); lia. }
    repeat split; [lia | congruence |].
    rewrite Hwc', Hwc, Hq. reflexivity.
Qed.

Lemma walk_layer_on_track (st st' : walk_state) (layer : list Z) (k : Z) :
  walk_layer env st layer = inr st' -> on_track env n_points k st ->
  on_track env n_points (k + Z.of_nat (length layer)) st'.
Proof.
  unfold walk_layer. revert st k.
  induction layer as [| idx layer IH]; intros st k; simpl length.
  - intros [= <-]. rewrite Z.add_0_r. auto.
  - simpl. intros H Hk. apply bind_inr in H as (st1 & H1 & H).
    apply (visit_on_track _ _ _ _ H1) in Hk.
    apply (IH _ _ H) in Hk.
    replace (k + Z.of_nat (Datatypes.S (length layer)))%Z
      with (k + 1 + Z.of_nat (length layer))%Z by lia.
    exact Hk.
Qed.

(** The end of a layer leaves the counter and [wc] alone. *)
Lemma end_layer_on_track (st : walk_state) (k : Z) :
  on_track env n_points k st -> on_track env n_points k (end_layer env st).
Proof. unfold on_track. simpl. auto. Qed.

Lemma walk_layers_on_track (st st' : walk_state) layers (k : Z) :
  walk_layers env st layers = inr st' -> on_track env n_points k st ->
  on_track env n_points (k + Z.of_nat (length (concat layers))) st'.
Proof.
  revert st k. induction layers as [| layer layers IH]; intros st k.
  - intros [= <-]. simpl. rewrite Z.add_0_r. auto.
  - rewrite walk_layers_cons. intros H Hk.
    apply bind_inr in H as (st1 & H1 & H).
    apply (walk_layer_on_track _ _ _ _ H1) in Hk.
    apply end_layer_on_track in Hk. apply (IH _ _ H) in Hk.
    simpl concat. rewrite length_app, Nat2Z.inj_add, Z.add_assoc.
    exact Hk.
Qed.

End Track.

(** ** The logistic remap *)

Lemma logistic_p_sigma (A : R) : logistic_p A = sigma (- A / 2).
Proof.
  unfold logistic_p, sigma. do 3 f_equal. unfold Rdiv. ring.
Qed.

Lemma logistic_q_sigma (A : R) : logistic_q A = sigma (A / 2).
Proof.
  unfold logistic_q, sigma. do 3 f_equal. unfold Rdiv. ring.
Qed.

Lemma sigma_increasing (x y : R) : x < y -> sigma x < sigma y.
Proof.
  intros Hxy. unfold sigma.
  pose proof (exp_pos (- x)). pose proof (exp_pos (- y)).
  assert (exp (- y) < exp (- x)) by (apply exp_increasing; lra).
  unfold Rdiv. rewrite !Rmult_1_l.
  apply Rinv_lt_contravar; [| lra].
  apply Rmult_lt_0_compat; lra.
Qed.

Lemma sigma_span_pos : 0 < sigma (sharpness / 2) - sigma (- sharpness / 2).
Proof.
  assert (sigma (- sharpness / 2) < sigma (sharpness / 2))
    by (apply sigma_increasing; unfold sharpness; lra).
  lra.
Qed.

Lemma logistic_elem_15 (v : R) : logistic_elem 15 v = inr (remap v).
Proof.
  unfold logistic_elem, py_div.
  rewrite logistic_p_sigma, logistic_q_sigma. fold sharpness.
  pose proof sigma_span_pos as Hspan.
  destruct (Req_dec_T _ 0) as [E | _]; [lra |].
  unfold ret, remap. do 3 f_equal. unfold sigma. do 3 f_equal. ring.
Qed.

Lemma logistic_map_15 (points : list (list R)) :
  logistic_map points 15 = inr (map (map remap) points).
Proof.
  unfold logistic_map.
  apply comprehension_total, List.Forall_forall. intros vec _.
  apply comprehension_total, List.Forall_forall. intros v _.
  apply logistic_elem_15.
Qed.

(** ** What is set up before the loops *)

Lemma length_preprocessed md m x : length (preprocessed md m x) = length x.
Proof. destruct md; simpl; apply length_map. Qed.

Lemma first_point (m : nat) (points : list (list R)) :
  points <> [] -> Forall (fun point => length point = m) points ->
  exists point0, py_getitem points 0 = inr point0 /\ length point0 = m.
Proof.
  intros Hne Hall. destruct points as [| point0 points]; [congruence |].
  exists point0. split; [reflexivity |]. inversion Hall. assumption.
Qed.

Lemma env_of_well_formed md m points layers nl z :
  points <> [] -> Forall (fun point => length point = m) points ->
  env_of md points layers nl z = inr (loop_env md m points layers nl z).
Proof.
  intros Hne Hall. unfold loop_env.
  destruct (first_point m points Hne Hall) as (point0 & H0 & Hlen).
  destruct md; simpl.
  - unfold palettize_env. rewrite H0. simpl. rewrite Hlen.
    assert (Hs : scale points (if (3 <? m)%nat then 2 else 1) =
                 inr (map (map (fun c => PyFloat (c ^ default_power m)))
                          points)).
    { unfold default_power. destruct (3 <? m)%nat.
      - replace 2 with (INR 2) by (simpl; lra). apply scale_nat. lia.
      - change 1 with (INR 1). apply scale_nat. lia. }
    rewrite Hs. simpl. unfold ret. do 2 f_equal.
    + apply map_ext. intros x. rewrite map_map. reflexivity.
    + rewrite length_map. reflexivity.
  - unfold palettize_polar_env. rewrite H0. simpl. rewrite Hlen.
    assert (Hs : scale (reverse_normalize points)
                       (if (3 <? m)%nat then 3 else 2) =
                 inr (map (map (fun c => PyFloat (c ^ polar_power m)))
                          (reverse_normalize points))).
    { unfold polar_power. destruct (3 <? m)%nat.
      - replace 3 with (INR 3) by (simpl; lra). apply scale_nat. lia.
      - replace 2 with (INR 2) by (simpl; lra). apply scale_nat. lia. }
    rewrite Hs. simpl. unfold ret, reverse_normalize. do 2 f_equal.
    + rewrite map_map. apply map_ext. intros x. rewrite !map_map.
      reflexivity.
    + rewrite !length_map. reflexivity.
  - unfold palettize_logistic_env. rewrite logistic_map_15. simpl.
    rewrite (py_getitem_map (map remap) points 0 point0 H0). simpl.
    rewrite length_map, Hlen. unfold ret. do 2 f_equal.
    + rewrite map_map. reflexivity.
    + rewrite length_map. reflexivity.
Qed.

Lemma palettize_mode_unfold md points layers nl z :
  palettize_mode md points layers nl z =
  bind (env_of md points layers nl z)
       (fun env => bind (walk_layers env initial_state layers)
                        (fun st => ret (palette_coords st))).
Proof. destruct md; reflexivity. Qed.

(** ** The walk on well-formed input *)

Section WellFormed.

Variables (md : mode) (m : nat) (points : list (list R)).
Variables (layers : list (list Z)) (nl : Z) (z : R).
Hypothesis Hdim : Forall (fun point => length point = m) points.

Let env : walk_env := loop_env md m points layers nl z.

Lemma loop_env_getitem (idx : Z) (x : list R) :
  py_getitem points idx = inr x ->
  py_getitem (points_ env) idx = inr (map PyFloat (preprocessed md m x)) /\
  length x = m.
Proof.
  intros Hx. split.
  - apply (py_getitem_map (fun x => map PyFloat (preprocessed md m x))).
    exact Hx.
  - apply py_getitem_inr in Hx as [_ Hnth]. apply nth_error_In in Hnth.
    rewrite List.Forall_forall in Hdim. apply Hdim, Hnth.
Qed.

Lemma loop_env_getitem_inv (idx : Z) (f : list pynum) :
  py_getitem (points_ env) idx = inr f ->
  exists x, py_getitem points idx = inr x /\
            f = map PyFloat (preprocessed md m x).
Proof.
  intros Hf. apply py_getitem_inr in Hf as [Hv Hnth].
  simpl in Hv, Hnth. rewrite length_map in Hv, Hnth.
  rewrite nth_error_map in Hnth.
  destruct (nth_error points _) as [x |] eqn:Hx; [| discriminate].
  injection Hnth as <-. exists x. split; [| reflexivity].
  apply py_getitem_inr. auto.
Qed.

Lemma loop_env_uv (x : list R) :
  length x = m ->
  uv_rule env (axis_set env) (map PyFloat (preprocessed md m x)) =
  inr (uv_of md m (preprocessed md m x)).
Proof.
  intros Hlen.
  assert (Hm : (m <= length (preprocessed md m x))%nat)
    by (rewrite length_preprocessed; lia).
  destruct md; simpl;
    [apply uv_normalized_axes | apply uv_polar_axes | apply uv_normalized_axes];
    exact Hm.
Qed.

Lemma loop_env_visitable (idx : Z) :
  valid_index (length points) idx -> visitable env idx.
Proof.
  intros Hv. destruct (py_getitem_valid points idx Hv) as [x Hx].
  destruct (loop_env_getitem idx x Hx) as [Hf Hlen].
  exists (map PyFloat (preprocessed md m x)), (uv_of md m (preprocessed md m x)).
  split; [exact Hf | apply loop_env_uv, Hlen].
Qed.

(** An entry of a projected mapping, in terms of the caller's point. *)
Lemma loop_env_entry (pc : gmap Z (list R)) (idx : Z) (e : list R) :
  projected env pc -> pc !! idx = Some e ->
  exists x w,
    py_getitem points idx = inr x /\ length x = m /\
    e = [fst (uv_of md m (preprocessed md m x));
         snd (uv_of md m (preprocessed md m x)); w].
Proof.
  intros Hproj He.
  destruct (Hproj idx e He) as (f & u & v & w & Hf & Huv & ->).
  destruct (loop_env_getitem_inv idx f Hf) as (x & Hx & ->).
  destruct (loop_env_getitem idx x Hx) as [_ Hlen].
  rewrite (loop_env_uv x Hlen) in Huv. injection Huv as Huv.
  exists x, w. rewrite Huv. auto.
Qed.

Hypothesis Hne : points <> [].
Hypothesis Hlayers : Forall (Forall (valid_index (length points))) layers.

Lemma loop_env_layers_visitable : Forall (Forall (visitable env)) layers.
Proof.
  eapply List.Forall_impl; [| exact Hlayers]. intros layer Hl.
  eapply List.Forall_impl; [| exact Hl]. intros idx. apply loop_env_visitable.
Qed.

(** On well-formed input the call returns: the mapping is the one the walk
    over [layers] builds in [loop_env]. *)
Lemma palettize_mode_returns :
  exists stf,
    env_of md points layers nl z = inr env /\
    walk_layers env initial_state layers = inr stf /\
    palettize_mode md points layers nl z = inr (palette_coords stf).
Proof.
  destruct (walk_layers_total env initial_state layers
              loop_env_layers_visitable) as [stf Hstf].
  exists stf. rewrite palettize_mode_unfold.
  rewrite (env_of_well_formed md m) by assumption.
  fold env. simpl. rewrite Hstf. auto.
Qed.

(** Every index of the layers has an entry, made from its own point. *)
Lemma palettize_mode_entry (stf : walk_state) (idx : Z) :
  walk_layers env initial_state layers = inr stf ->
  idx ∈ concat layers ->
  exists x w,
    py_getitem points idx = inr x /\ length x = m /\
    palette_coords stf !! idx =
      Some [fst (uv_of md m (preprocessed md m x));
            snd (uv_of md m (preprocessed md m x)); w].
Proof.
  intros Hstf Hin.
  destruct (walk_layers_inv env _ _ _ Hstf) as (_ & Hdom & _ & Hproj & _).
  assert (Hsome : is_Some (palette_coords stf !! idx)).
  { apply elem_of_dom. rewrite Hdom. set_solver. }
  destruct Hsome as [e He].
  assert (Hp0 : projected env (palette_coords initial_state)).
  { intros i e'. simpl. rewrite lookup_empty. discriminate. }
  destruct (loop_env_entry _ idx e (Hproj Hp0) He) as (x & w & Hx & Hl & ->).
  exists x, w. auto.
Qed.

End WellFormed.

(** ** Which exceptions the projection can raise *)

Lemma py_getitem_inl {A : Type} (l : list A) idx e :
  py_getitem l idx = inl e -> e = IndexError.
Proof.
  unfold py_getitem. destruct (_ && _)%bool; [| intros [= <-]; reflexivity].
  destruct (nth_error _ _); [discriminate | intros [= <-]; reflexivity].
Qed.

Lemma math_fsum_inl (l : list pynum) e :
  math_fsum l = inl e -> e = TypeError.
Proof.
  induction l as [| [a | re im] l IH]; simpl.
  - discriminate.
  - destruct (math_fsum l); simpl; [| discriminate].
    intros [= <-]. apply IH. reflexivity.
  - intros [= <-]. reflexivity.
Qed.

Lemma comprehension_inl {A B : Type} (g : A -> pyres B) (P : pyerr -> Prop) l e :
  (forall x e', g x = inl e' -> P e') ->
  comprehension g l = inl e -> P e.
Proof.
  intros Hg. induction l as [| x l IH]; simpl; [discriminate |].
  destruct (g x) as [e' | y] eqn:Hx; simpl.
  - intros [= <-]. eapply Hg, Hx.
  - destruct (comprehension g l); simpl; [| discriminate].
    intros [= <-]. apply IH. reflexivity.
Qed.

Lemma weighted_fsum_inl f S coord e :
  weighted_fsum f S coord = inl e -> e = IndexError \/ e = TypeError.
Proof.
  unfold weighted_fsum.
  destruct (comprehension _ _) as [e' | terms] eqn:Hc; simpl.
  - intros [= <-]. left.
    apply (comprehension_inl _ (fun e => e = IndexError) _ _) in Hc;
      [exact Hc |].
    intros [i t] e''. simpl.
    destruct (py_getitem f i) eqn:Hg; simpl; [| discriminate].
    intros [= <-]. eapply py_getitem_inl, Hg.
  - intros H. right. eapply math_fsum_inl, H.
Qed.

(** The division of the normalized rule never divides by zero. *)
Lemma uv_normalized_no_zero_division S f :
  uv_normalized S f <> inl ZeroDivisionError.
Proof.
  unfold uv_normalized.
  destruct (math_fsum f) as [e | s] eqn:Hs; simpl.
  - apply math_fsum_inl in Hs. congruence.
  - destruct (Rlt_dec 0 s) as [Hpos | _]; [| discriminate].
    unfold py_div. destruct (Req_dec_T s 0); [lra |].
    destruct (weighted_fsum f S fst) as [e | su] eqn:Hu; simpl.
    + apply weighted_fsum_inl in Hu. intros [= ->]. destruct Hu; discriminate.
    + destruct (weighted_fsum f S snd) as [e | sv] eqn:Hv; simpl.
      * apply weighted_fsum_inl in Hv. intros [= ->].
        destruct Hv; discriminate.
      * discriminate.
Qed.

(** ** Uniform rescaling of a point *)

Lemma sum_R_scale (a : R) (l : list R) :
  sum_R (map (Rmult a) l) = a * sum_R l.
Proof.
  induction l as [| x l IH]; simpl; [ring |]. rewrite IH. ring.
Qed.

Lemma sum_R_ext {A : Type} (g h : A -> R) (l : list A) :
  (forall x, In x l -> g x = h x) -> sum_R (map g l) = sum_R (map h l).
Proof. intros H. f_equal. apply map_ext_in, H. Qed.

Lemma radial_scale (trig : R -> R) (m : nat) (a : R) (f : list R) :
  radial trig m (map (Rmult a) f) = a * radial trig m f.
Proof.
  unfold radial. rewrite <- sum_R_scale, map_map.
  apply sum_R_ext. intros i _.
  replace 0 with (a * 0) at 1 by ring. rewrite map_nth. ring.
Qed.

Lemma preprocessed_default_scale (m : nat) (k : R) (x : list R) :
  preprocessed Default m (map (Rmult k) x) =
  map (Rmult (k ^ default_power m)) (preprocessed Default m x).
Proof.
  simpl. rewrite !map_map. apply map_ext. intros c. apply Rpow_mult_distr.
Qed.

Lemma uv_of_default_scale (m : nat) (a : R) (f : list R) :
  0 < a ->
  uv_of Default m (map (Rmult a) f) = uv_of Default m f.
Proof.
  intros Ha. simpl. rewrite sum_R_scale, !radial_scale.
  destruct (Rlt_dec 0 (sum_R f)) as [Hpos | Hnpos].
  - destruct (Rlt_dec 0 (a * sum_R f)) as [_ | Hn].
    + f_equal; field; lra.
    + exfalso. apply Hn. apply Rmult_lt_0_compat; assumption.
  - destruct (Rlt_dec 0 (a * sum_R f)) as [Hp | _]; [| reflexivity].
    exfalso. apply Hnpos. nra.
Qed.

(** ** The walk, cut at one visit *)

Lemma visit_entry env st st' idx :
  visit env st idx = inr st' ->
  exists u v,
    palette_coords st' !! idx =
    Some [u; v; if use_wl env then wl st else wc st].
Proof.
  intros Hv. destruct (visit_inr _ _ _ _ Hv) as (f & u & v & _ & _ & Hpc & _).
  exists u, v. rewrite Hpc. apply lookup_insert_eq.
Qed.

Lemma walk_upto_snoc env pre l1 idx :
  walk_upto env pre (l1 ++ [idx]) =
  bind (walk_upto env pre l1) (fun st => visit env st idx).
Proof.
  unfold walk_upto. destruct (walk_layers env initial_state pre); simpl;
    [reflexivity | apply walk_layer_snoc].
Qed.

(** One visit of a walk that ran to its end: the state before it, the state
    after it, the layer-indexed depth at that point, and what is left of its
    entry at the end. *)
Lemma walk_cut env layers stf pre l1 idx l2 post :
  walk_layers env initial_state layers = inr stf ->
  layers = pre ++ (l1 ++ idx :: l2) :: post ->
  exists st st',
    walk_upto env pre l1 = inr st /\
    visit env st idx = inr st' /\
    walk_upto env pre (l1 ++ [idx]) = inr st' /\
    wl st = - INR (length pre) * zgap env /\
    (idx ∉ l2 -> idx ∉ concat post ->
     palette_coords stf !! idx = palette_coords st' !! idx).
Proof.
  intros Hwalk ->.
  destruct (walk_layers_split _ _ _ _ _ _ _ _ Hwalk)
    as (st0 & st1 & st2 & st3 & H0 & H1 & H2 & H3 & H4).
  exists st1, st2.
  assert (Hupto : walk_upto env pre l1 = inr st1)
    by (unfold walk_upto; rewrite H0; exact H1).
  split; [exact Hupto |]. split; [exact H2 |]. split.
  { rewrite walk_upto_snoc, Hupto. exact H2. }
  split.
  - destruct (walk_layers_inv _ _ _ _ H0) as (Hwl0 & _).
    destruct (walk_layer_inv _ _ _ _ H1) as (Hwl1 & _).
    rewrite Hwl1, Hwl0. simpl. lra.
  - intros Hl2 Hpost.
    destruct (walk_layer_inv _ _ _ _ H3) as (_ & _ & Hoth3 & _).
    destruct (walk_layers_inv _ _ _ _ H4) as (_ & _ & Hoth4 & _).
    rewrite Hoth4 by exact Hpost. simpl. apply Hoth3, Hl2.
Qed.

Lemma count_reaches_finite (k : Z) (r : R) :
  count_reaches k (Finite r) = true <-> r <= IZR k.
Proof.
  simpl. destruct (Rle_dec r (IZR k)); split; auto; discriminate.
Qed.

(** ** Where [scale] can raise, and where it leaves the reals *)

Lemma comprehension_inl_Exists {A B : Type} (g : A -> pyres B) l e :
  comprehension g l = inl e -> Exists (fun x => g x = inl e) l.
Proof.
  induction l as [| x l IH]; simpl; [discriminate |].
  destruct (g x) as [e' | y] eqn:Hx; simpl.
  - intros [= <-]. left. exact Hx.
  - destruct (comprehension g l); simpl; [| discriminate].
    intros [= <-]. right. apply IH. reflexivity.
Qed.

Lemma py_pow_inl (x y : R) e :
  py_pow x y = inl e -> e = ZeroDivisionError /\ x = 0 /\ y < 0.
Proof.
  unfold py_pow. destruct (Req_dec_T y 0); [discriminate |].
  destruct (Req_dec_T x 0) as [-> | _].
  - destruct (Rlt_dec y 0); [| discriminate]. intros [= <-]. auto.
  - destruct (Rlt_dec x 0); [| discriminate].
    destruct (is_integral y); discriminate.
Qed.

Lemma py_pow_negative_fractional (x y : R) :
  x < 0 -> is_integral y = false ->
  py_pow x y = inr (PyComplex (Rpower (- x) y * cos (PI * y))
                              (Rpower (- x) y * sin (PI * y))).
Proof.
  intros Hx Hy. unfold py_pow.
  destruct (Req_dec_T y 0) as [-> | _].
  - change 0 with (IZR 0) in Hy. rewrite is_integral_IZR in Hy. discriminate.
  - destruct (Req_dec_T x 0); [lra |].
    destruct (Rlt_dec x 0); [| lra]. rewrite Hy. reflexivity.
Qed.

Lemma is_integral_half : is_integral (1 / 2) = false.
Proof.
  unfold is_integral.
  replace (floor (1 / 2)) with 0%Z
    by (unfold floor; apply Int_part_spec; lra).
  destruct (Req_dec_T 0 (1 / 2)); [lra | reflexivity].
Qed.

Lemma Rpower_one (y : R) : Rpower 1 y = 1.
Proof. unfold Rpower. rewrite ln_1, Rmult_0_r. apply exp_0. Qed.

(** * The store *)

(** ** Rules *)

Lemma keeps_refl (h : gmap loc object) : keeps h h.
Proof. intros l o H. exact H. Qed.

Lemma keeps_dom (h0 h : gmap loc object) (l : loc) :
  keeps h0 h -> l ∉ dom h -> l ∉ dom h0.
Proof.
  intros Hk Hl Hin. apply Hl. apply elem_of_dom in Hin as [o Ho].
  apply elem_of_dom. exists o. apply Hk, Ho.
Qed.

Lemma keeps_insert (h0 h : gmap loc object) (l : loc) (o : object) :
  keeps h0 h -> l ∉ dom h0 -> keeps h0 (<[l := o]> h).
Proof.
  intros Hk Hl l' o' H'. rewrite lookup_insert_ne; [apply Hk, H' |].
  intros ->. apply Hl. apply elem_of_dom. eauto.
Qed.

Lemma fresh_not_in_dom (h : gmap loc object) : fresh (dom h) ∉ dom h.
Proof. apply is_fresh. Qed.

Section Rules.

Variable h0 : gmap loc object.

Lemma triple_ret {A : Type} (P : gmap loc object -> Prop) (a : A)
    (Q : A -> gmap loc object -> Prop) :
  (forall h, P h -> Q a h) -> triple h0 P (h_ret a) Q.
Proof.
  intros HQ h Hk HP. simpl. split; [exact Hk |].
  intros a' [= <-]. apply HQ, HP.
Qed.

Lemma triple_lift {A : Type} (P : gmap loc object -> Prop) (r : pyres A)
    (Q : A -> gmap loc object -> Prop) :
  (forall h a, P h -> r = inr a -> Q a h) -> triple h0 P (lift r) Q.
Proof.
  intros HQ h Hk HP. simpl. split; [exact Hk |].
  intros a Hr. apply HQ; assumption.
Qed.

Lemma triple_bind {A B : Type} (P : gmap loc object -> Prop) (c : M A)
    (Q : A -> gmap loc object -> Prop) (k : A -> M B)
    (Q' : B -> gmap loc object -> Prop) :
  triple h0 P c Q -> (forall a, triple h0 (Q a) (k a) Q') ->
  triple h0 P (h_bind c k) Q'.
Proof.
  intros Hc Hk h Hkeep HP. unfold h_bind.
  destruct (Hc h Hkeep HP) as [Hkeep1 HQ].
  destruct (c h) as [h1 [e | a]]; simpl in *.
  - split; [exact Hkeep1 | discriminate].
  - apply Hk; [exact Hkeep1 | apply HQ; reflexivity].
Qed.

Lemma triple_conseq {A : Type} (P P' : gmap loc object -> Prop) (c : M A)
    (Q Q' : A -> gmap loc object -> Prop) :
  triple h0 P c Q ->
  (forall h, keeps h0 h -> P' h -> P h) ->
  (forall a h, keeps h0 h -> Q a h -> Q' a h) ->
  triple h0 P' c Q'.
Proof.
  intros Hc HP HQ h Hk HP'.
  destruct (Hc h Hk (HP h Hk HP')) as [Hk1 H1].
  split; [exact Hk1 |]. intros a Ha. apply HQ; [exact Hk1 | apply H1, Ha].
Qed.

(** A fact that does not depend on the store. *)
Lemma triple_pure {A : Type} (phi : Prop) (P : gmap loc object -> Prop)
    (c : M A) (Q : A -> gmap loc object -> Prop) :
  (phi -> triple h0 P c Q) -> triple h0 (fun h => phi /\ P h) c Q.
Proof. intros Hc h Hk [Hphi HP]. apply Hc; assumption. Qed.

(** A new object is none of the objects of [h0], nor of the store it is
    added to. *)
Lemma triple_alloc (P : gmap loc object -> Prop) (o : object) :
  triple h0 P (alloc o)
    (fun l h => (l ∉ dom h0) /\
                exists h1, P h1 /\ (l ∉ dom h1) /\ h = <[l := o]> h1).
Proof.
  intros h Hk HP. unfold alloc. simpl.
  pose proof (fresh_not_in_dom h) as Hfresh.
  pose proof (keeps_dom h0 h _ Hk Hfresh) as Hfresh0.
  split; [apply keeps_insert; assumption |].
  intros l [= <-]. split; [exact Hfresh0 |]. exists h. auto.
Qed.

Lemma triple_read_list (P : gmap loc object -> Prop) (l : loc) :
  triple h0 P (read_list l)
    (fun items h => P h /\ h !! l = Some (OList items)).
Proof.
  intros h Hk HP. unfold read_list.
  destruct (h !! l) as [[items | entries] |] eqn:Hl; simpl;
    (split; [exact Hk |]); try discriminate.
  intros items' [= <-]. auto.
Qed.

(** A write is allowed at the address of an object that is not one of
    [h0]. *)
Lemma triple_list_append (P : gmap loc object -> Prop) (l : loc) (v : value) :
  l ∉ dom h0 ->
  triple h0 P (list_append l v)
    (fun _ h => exists h1 items,
                  P h1 /\ h1 !! l = Some (OList items) /\
                  h = <[l := OList (items ++ [v])]> h1).
Proof.
  intros Hl h Hk HP. unfold list_append.
  destruct (h !! l) as [[items | entries] |] eqn:Hhl; simpl;
    try (split; [exact Hk | discriminate]).
  split; [apply keeps_insert; assumption |].
  intros _ _. exists h, items. auto.
Qed.

Lemma triple_dict_setitem (P : gmap loc object -> Prop) (d : loc) (k : Z)
    (v : loc) :
  d ∉ dom h0 ->
  triple h0 P (dict_setitem d k v)
    (fun _ h => exists h1 entries,
                  P h1 /\ h1 !! d = Some (ODict entries) /\
                  h = <[d := ODict (<[k := v]> entries)]> h1).
Proof.
  intros Hd h Hk HP. unfold dict_setitem.
  destruct (h !! d) as [[items | entries] |] eqn:Hhd; simpl;
    try (split; [exact Hk | discriminate]).
  split; [apply keeps_insert; assumption |].
  intros _ _. exists h, entries. auto.
Qed.

Lemma triple_for_each {A St : Type} (I : St -> gmap loc object -> Prop)
    (body : St -> A -> M St) (l : list A) (st : St) :
  (forall st x, triple h0 (I st) (body st x) I) ->
  triple h0 (I st) (h_for_each body st l) I.
Proof.
  intros Hbody. revert st. induction l as [| x l IH]; intros st; simpl.
  - apply triple_ret. auto.
  - eapply triple_bind; [apply Hbody | apply IH].
Qed.

(** Derived forms, for a computation followed by the rest of the code. *)

Lemma triple_lift_then {A B : Type} (P : gmap loc object -> Prop)
    (r : pyres A) (k : A -> M B) (Q : B -> gmap loc object -> Prop) :
  (forall a, r = inr a -> triple h0 P (k a) Q) ->
  triple h0 P (h_bind (lift r) k) Q.
Proof.
  intros Hk.
  apply (triple_bind P _ (fun a h => r = inr a /\ P h)).
  - apply triple_lift. auto.
  - intros a. apply triple_pure, Hk.
Qed.

Lemma triple_read_then {B : Type} (P : gmap loc object -> Prop) (l : loc)
    (k : list value -> M B) (Q : B -> gmap loc object -> Prop) :
  (forall items, triple h0 P (k items) Q) ->
  triple h0 P (h_bind (read_list l) k) Q.
Proof.
  intros Hk. eapply triple_bind; [apply triple_read_list |].
  intros items. eapply triple_conseq; [apply Hk | | auto].
  intros h _ [HP _]. exact HP.
Qed.

Lemma triple_pre {A : Type} (P P' : gmap loc object -> Prop) (c : M A)
    (Q : A -> gmap loc object -> Prop) :
  triple h0 P c Q -> (forall h, keeps h0 h -> P' h -> P h) ->
  triple h0 P' c Q.
Proof. intros Hc HP. eapply triple_conseq; [exact Hc | exact HP | auto]. Qed.

Lemma triple_post {A : Type} (P : gmap loc object -> Prop) (c : M A)
    (Q Q' : A -> gmap loc object -> Prop) :
  triple h0 P c Q -> (forall a h, keeps h0 h -> Q a h -> Q' a h) ->
  triple h0 P c Q'.
Proof. intros Hc HQ. eapply triple_conseq; [exact Hc | auto | exact HQ]. Qed.

End Rules.

(** ** The preprocessors on the store *)

Lemma fresh_rows_alloc h0 l h new o :
  fresh_rows h0 l h -> new ∉ dom h -> fresh_rows h0 l (<[new := o]> h).
Proof.
  intros (Hl & items & Hitems & Hall) Hnew. split; [exact Hl |].
  exists items. split; [| exact Hall].
  rewrite lookup_insert_ne; [exact Hitems |].
  intros ->. apply Hnew. apply elem_of_dom. eauto.
Qed.

(** The collection a preprocessor returns is new, and so are its rows; no
    object of the initial store is written to. *)
Lemma h_rebuild_spec h0 g points :
  triple h0 (fun _ => True) (h_rebuild g points) (fresh_rows h0).
Proof.
  unfold h_rebuild.
  eapply triple_bind; [apply triple_alloc |]. intros l.
  apply (triple_pre h0 (fun h => (l ∉ dom h0) /\ fresh_rows h0 l h)).
  2:{ intros h _ (Hl & h1 & _ & Hl1 & ->). split; [exact Hl |].
      split; [exact Hl |]. exists []. rewrite lookup_insert_eq. auto. }
  apply triple_pure. intros Hl.
  apply triple_read_then. intros rows.
  eapply triple_bind.
  - apply (triple_for_each h0 (fun _ h => fresh_rows h0 l h)).
    intros [] row. unfold h_rebuild_row.
    apply triple_lift_then. intros r _.
    apply triple_read_then. intros point.
    apply triple_lift_then. intros items _.
    eapply triple_bind; [apply triple_alloc |]. intros new.
    apply triple_pure. intros Hnew.
    eapply triple_post; [apply triple_list_append, Hl |].
    intros [] h _ (h1 & items0 & (h2 & Hrows & Hnew2 & ->) & Hitems0 & ->).
    destruct (fresh_rows_alloc h0 l h2 new (OList items) Hrows Hnew2)
      as (_ & items1 & Hitems1 & Hall).
    assert (items1 = items0) by congruence. subst items1.
    split; [exact Hl |]. exists (items0 ++ [VRef new]).
    rewrite lookup_insert_eq. split; [reflexivity |].
    apply Forall_app. split; [exact Hall |]. constructor; eauto.
  - intros []. apply triple_ret. auto.
Qed.

Lemma h_copy_spec h0 points :
  triple h0 (fun _ => True) (h_copy points) (fun l _ => l ∉ dom h0).
Proof.
  unfold h_copy. apply triple_read_then. intros rows.
  eapply triple_post; [apply triple_alloc |].
  intros l h _ [Hl _]. exact Hl.
Qed.

Lemma h_dimension_spec h0 points :
  triple h0 (fun _ => True) (h_dimension points) (fun _ _ => True).
Proof.
  unfold h_dimension. apply triple_read_then. intros rows.
  apply triple_lift_then. intros row0 _.
  apply triple_lift_then. intros r0 _.
  apply triple_read_then. intros point0.
  apply triple_ret. auto.
Qed.

Lemma h_len_spec h0 l :
  triple h0 (fun _ => True) (h_len l) (fun _ _ => True).
Proof.
  unfold h_len. apply triple_read_then. intros rows.
  apply triple_ret. auto.
Qed.

(** ** The walk on the store *)

Lemma h_visit_spec h0 env palette st idx :
  palette ∉ dom h0 ->
  triple h0 (fun _ => True) (h_visit env palette st idx) (fun _ _ => True).
Proof.
  intros Hpal. unfold h_visit. destruct st as [[wl0 wc0] count0].
  apply triple_read_then. intros rows.
  apply triple_lift_then. intros row _.
  apply triple_lift_then. intros r _.
  apply triple_read_then. intros items.
  apply triple_lift_then. intros f _.
  apply triple_lift_then. intros uv _.
  eapply triple_bind; [apply triple_alloc |]. intros entry.
  eapply triple_bind.
  - eapply triple_post; [apply triple_dict_setitem, Hpal |].
    intros a h _ _. exact I.
  - intros []. destruct (count_reaches _ _); apply triple_ret; auto.
Qed.

(** The dict the walk returns is new. *)
Lemma h_walk_spec h0 env layers :
  triple h0 (fun _ => True) (h_walk env layers) (fun d _ => d ∉ dom h0).
Proof.
  unfold h_walk.
  eapply triple_bind; [apply triple_alloc |]. intros palette.
  apply (triple_pre h0 (fun h => (palette ∉ dom h0) /\ True)).
  2:{ intros h _ (Hp & _). auto. }
  apply triple_pure. intros Hpal.
  eapply triple_bind.
  - apply (triple_for_each h0 (fun _ _ => True)).
    intros st layer. eapply triple_bind.
    + apply (triple_for_each h0 (fun _ _ => True)).
      intros st1 idx. apply h_visit_spec, Hpal.
    + intros [[wl1 wc1] count1]. apply triple_ret. auto.
  - intros st'. apply triple_ret. auto.
Qed.

Lemma triple_forget {A : Type} h0 (P : gmap loc object -> Prop) (c : M A)
    (Q : A -> gmap loc object -> Prop) :
  triple h0 (fun _ => True) c Q -> triple h0 P c (fun _ _ => True).
Proof.
  intros Hc.
  eapply triple_conseq; [exact Hc | intros; exact I | intros; exact I].
Qed.

Lemma h_palettize_mode_spec h0 md points layers nl z :
  triple h0 (fun _ => True) (h_palettize_mode md points layers nl z)
    (fun d _ => d ∉ dom h0).
Proof.
  destruct md; simpl.
  - unfold h_palettize.
    eapply triple_bind; [eapply triple_forget, h_copy_spec |]. intros c.
    eapply triple_bind; [eapply triple_forget, h_dimension_spec |]. intros m.
    eapply triple_bind; [eapply triple_forget, h_rebuild_spec |]. intros p.
    eapply triple_bind; [eapply triple_forget, h_len_spec |]. intros n.
    eapply triple_pre; [apply h_walk_spec | auto].
  - unfold h_palettize_polar.
    eapply triple_bind; [eapply triple_forget, h_dimension_spec |]. intros m.
    eapply triple_bind; [eapply triple_forget, h_copy_spec |]. intros c.
    eapply triple_bind; [eapply triple_forget, h_rebuild_spec |]. intros p1.
    eapply triple_bind; [eapply triple_forget, h_rebuild_spec |]. intros p2.
    eapply triple_bind; [eapply triple_forget, h_len_spec |]. intros n.
    eapply triple_pre; [apply h_walk_spec | auto].
  - unfold h_palettize_logistic.
    eapply triple_bind; [eapply triple_forget, h_copy_spec |]. intros c.
    eapply triple_bind; [eapply triple_forget, h_rebuild_spec |]. intros p.
    eapply triple_bind; [eapply triple_forget, h_dimension_spec |]. intros m.
    eapply triple_bind; [eapply triple_forget, h_len_spec |]. intros n.
    eapply triple_pre; [apply h_walk_spec | auto].
Qed.

(** * The claims *)

(** C1.  On a collection of points of dimensionality [m >= 2], [palettize]
    first replaces each coordinate [f] by [f^p], with [p = 2] if [m > 3] and
    [p = 1] otherwise; then every index of the layers gets
    [u = (sum of f_i * cos (2*pi*i/m)) / (sum of f_i)] and
    [v = (sum of f_i * sin (2*pi*i/m)) / (sum of f_i)] when the sum of its
    preprocessed coordinates is positive, and [(u, v) = (0, 0)] when that
    sum is exactly 0. *)
Theorem palettize_normalized_formula
    (m : nat) (points : list (list R)) (layers : list (list Z))
    (nl : Z) (z : R) :
  (2 <= m)%nat ->
  well_formed m points layers ->
  let p := if (3 <? m)%nat then 2%nat else 1%nat in
  exists env pc,
    palettize_env points layers nl z = inr env /\
    points_ env = map (map (fun f => PyFloat (f ^ p))) points /\
    palettize points layers nl z = inr pc /\
    forall idx, idx ∈ concat layers ->
      exists x u v w,
        py_getitem points idx = inr x /\
        pc !! idx = Some [u; v; w] /\
        let f := map (fun c => c ^ p) x in
        (0 < sum_R f ->
           u = radial cos m f / sum_R f /\ v = radial sin m f / sum_R f) /\
        (sum_R f = 0 -> u = 0 /\ v = 0).
Proof.
  intros _ (Hne & Hdim & Hlayers) p.
  destruct (palettize_mode_returns Default m points layers nl z
              Hdim Hne Hlayers) as (stf & Henv & Hwalk & Hrun).
  exists (loop_env Default m points layers nl z), (palette_coords stf).
  split; [exact Henv |]. split.
  { simpl. rewrite <- map_map. rewrite map_map.
    apply map_ext. intros x. rewrite map_map. reflexivity. }
  split; [exact Hrun |]. intros idx Hin.
  destruct (palettize_mode_entry Default m points layers nl z Hdim Hne
              Hlayers stf idx Hwalk Hin) as (x & w & Hx & _ & He).
  simpl in He. fold p in He. unfold default_power in He. fold p in He.
  set (f := map (fun c => c ^ p) x) in *.
  exists x, (fst (if Rlt_dec 0 (sum_R f)
                  then (radial cos m f / sum_R f, radial sin m f / sum_R f)
                  else (0, 0))),
            (snd (if Rlt_dec 0 (sum_R f)
                  then (radial cos m f / sum_R f, radial sin m f / sum_R f)
                  else (0, 0))), w.
  split; [exact Hx |]. split; [exact He |]. cbv zeta. clear He. subst f.
  destruct (Rlt_dec 0 _); simpl; split; intros; auto; exfalso; lra.
Qed.

Lemma palettize_normalized_formula_witness :
  (2 <= 2)%nat /\
  well_formed 2 [[1; 0]; [0; 1]; [0; 0]] [[0; 1; 2]%Z] /\
  exists pc u v w,
    palettize [[1; 0]; [0; 1]; [0; 0]] [[0; 1; 2]%Z] 0 1 = inr pc /\
    pc !! 2%Z = Some [u; v; w].
Proof.
  assert (Hwf : well_formed 2 [[1; 0]; [0; 1]; [0; 0]] [[0; 1; 2]%Z]).
  { repeat split; [discriminate | repeat constructor |].
    repeat constructor; unfold valid_index; simpl; lia. }
  split; [lia |]. split; [exact Hwf |].
  destruct (palettize_normalized_formula 2 _ _ 0 1 (le_n 2) Hwf)
    as (env & pc & _ & _ & Hrun & Hent).
  destruct (Hent 2%Z) as (x & u & v & w & _ & He & _).
  { simpl. apply list_elem_of_In. simpl. auto. }
  exists pc, u, v, w. split; [exact Hrun | exact He].
Defined.

(** C8.  On a collection of points of dimensionality [m >= 2],
    [palettize_polar] first replaces each coordinate [f] by [1 - f] and
    raises it to [p = 3] if [m > 3], [p = 2] otherwise; then every index of
    the layers gets [u = sum of f_i * cos (2*pi*i/m)] and
    [v = sum of f_i * sin (2*pi*i/m)] over its preprocessed coordinates,
    with no division by their sum. *)
Theorem palettize_polar_formula
    (m : nat) (points : list (list R)) (layers : list (list Z))
    (nl : Z) (z : R) :
  (2 <= m)%nat ->
  well_formed m points layers ->
  let p := if (3 <? m)%nat then 3%nat else 2%nat in
  exists env pc,
    palettize_polar_env points layers nl z = inr env /\
    points_ env = map (map (fun f => PyFloat ((1 - f) ^ p))) points /\
    palettize_polar points layers nl z = inr pc /\
    forall idx, idx ∈ concat layers ->
      exists x w,
        py_getitem points idx = inr x /\
        let f := map (fun c => (1 - c) ^ p) x in
        pc !! idx = Some [radial cos m f; radial sin m f; w].
Proof.
  intros _ (Hne & Hdim & Hlayers) p.
  destruct (palettize_mode_returns Polar m points layers nl z
              Hdim Hne Hlayers) as (stf & Henv & Hwalk & Hrun).
  exists (loop_env Polar m points layers nl z), (palette_coords stf).
  split; [exact Henv |]. split.
  { simpl. apply map_ext. intros x. rewrite map_map. reflexivity. }
  split; [exact Hrun |]. intros idx Hin.
  destruct (palettize_mode_entry Polar m points layers nl z Hdim Hne
              Hlayers stf idx Hwalk Hin) as (x & w & Hx & _ & He).
  exists x, w. split; [exact Hx | exact He].
Qed.

Lemma palettize_polar_formula_witness :
  (2 <= 4)%nat /\
  well_formed 4 [[1; 0; 0; 1]; [0; 1; 0.5; 0]] [[1]%Z; [0]%Z] /\
  exists pc u v w,
    palettize_polar [[1; 0; 0; 1]; [0; 1; 0.5; 0]] [[1]%Z; [0]%Z] 0 1
      = inr pc /\
    pc !! 0%Z = Some [u; v; w].
Proof.
  assert (Hwf : well_formed 4 [[1; 0; 0; 1]; [0; 1; 0.5; 0]]
                  [[1]%Z; [0]%Z]).
  { repeat split; [discriminate | repeat constructor |].
    repeat constructor; unfold valid_index; simpl; lia. }
  split; [lia |]. split; [exact Hwf |].
  destruct (palettize_polar_formula 4 _ _ 0 1 ltac:(lia) Hwf)
    as (env & pc & _ & _ & Hrun & Hent).
  destruct (Hent 0%Z) as (x & w & _ & He).
  { simpl. apply list_elem_of_In. simpl. auto. }
  exists pc. do 3 eexists. split; [exact Hrun | exact He].
Defined.

(** C10.  In the normalized and logistic variants the division by the
    coordinate sum is guarded by [fsum > 0.0]: a point whose preprocessed
    sum is negative or zero gets [(u, v) = (0, 0)] with no division and no
    exception, whatever its length; the rule never divides by zero, and a
    result other than [(0, 0)] only comes from a strictly positive sum. *)
Theorem nonpositive_sum_guard :
  (forall S f s,
     math_fsum f = inr s -> s <= 0 -> uv_normalized S f = inr (0, 0)) /\
  (forall S f, uv_normalized S f <> inl ZeroDivisionError) /\
  (forall S f u v,
     uv_normalized S f = inr (u, v) -> (u, v) <> (0, 0) ->
     exists s, math_fsum f = inr s /\ 0 < s) /\
  (forall md m points layers nl z,
     md = Default \/ md = Logistic ->
     well_formed m points layers ->
     exists pc,
       palettize_mode md points layers nl z = inr pc /\
       forall idx x,
         idx ∈ concat layers ->
         py_getitem points idx = inr x ->
         sum_R (preprocessed md m x) <= 0 ->
         exists w, pc !! idx = Some [0; 0; w]).
Proof.
  split; [exact uv_normalized_nonpos |].
  split; [exact uv_normalized_no_zero_division |].
  split.
  - intros S f u v Huv Hne. unfold uv_normalized in Huv.
    apply bind_inr in Huv as (s & Hs & Huv). exists s.
    split; [exact Hs |].
    destruct (Rlt_dec 0 s); [assumption |].
    injection Huv as <- <-. congruence.
  - intros md m points layers nl z Hmd (Hne & Hdim & Hlayers).
    destruct (palettize_mode_returns md m points layers nl z
                Hdim Hne Hlayers) as (stf & _ & Hwalk & Hrun).
    exists (palette_coords stf). split; [exact Hrun |].
    intros idx x Hin Hx Hsum.
    destruct (palettize_mode_entry md m points layers nl z Hdim Hne
                Hlayers stf idx Hwalk Hin) as (x' & w & Hx' & _ & He).
    assert (x' = x) by congruence. subst x'. exists w. rewrite He.
    destruct Hmd as [-> | ->]; unfold uv_of;
      (destruct (Rlt_dec 0 _); [lra | reflexivity]).
Qed.

Lemma nonpositive_sum_guard_witness :
  well_formed 2 [[-1; 0]] [[0]%Z] /\
  sum_R (preprocessed Default 2 [-1; 0]) <= 0 /\
  exists pc w,
    palettize [[-1; 0]] [[0]%Z] 0 1 = inr pc /\
    pc !! 0%Z = Some [0; 0; w].
Proof.
  assert (Hwf : well_formed 2 [[-1; 0]] [[0]%Z]).
  { repeat split; [discriminate | repeat constructor |].
    repeat constructor; unfold valid_index; simpl; lia. }
  assert (Hsum : sum_R (preprocessed Default 2 [-1; 0]) <= 0)
    by (simpl; lra).
  split; [exact Hwf |]. split; [exact Hsum |].
  destruct (proj2 (proj2 (proj2 nonpositive_sum_guard))
              Default 2%nat [[-1; 0]] [[0]%Z] 0%Z 1 (or_introl eq_refl) Hwf)
    as (pc & Hrun & Hent).
  destruct (Hent 0%Z [-1; 0]) as [w Hw].
  - simpl. apply list_elem_of_In. simpl. auto.
  - reflexivity.
  - exact Hsum.
  - exists pc, w. split; [exact Hrun | exact Hw].
Defined.

(** C5.  Scale invariance of the normalized variant, in exact real
    arithmetic: a point [x] with non-negative coordinates and a positive
    preprocessed sum, and the point [k * x] for a positive [k], are assigned
    the same [(u, v)]. *)
Theorem normalized_scale_invariant
    (m : nat) (points points' : list (list R)) (layers : list (list Z))
    (nl : Z) (z : R) (idx : Z) (x : list R) (k : R) :
  well_formed m points layers ->
  well_formed m points' layers ->
  idx ∈ concat layers ->
  py_getitem points idx = inr x ->
  py_getitem points' idx = inr (map (Rmult k) x) ->
  Forall (fun c => 0 <= c) x ->
  0 < sum_R (map (fun c => c ^ (if (3 <? m)%nat then 2 else 1)%nat) x) ->
  0 < k ->
  exists pc pc' u v w w',
    palettize points layers nl z = inr pc /\
    palettize points' layers nl z = inr pc' /\
    pc !! idx = Some [u; v; w] /\
    pc' !! idx = Some [u; v; w'].
Proof.
  intros (Hne & Hdim & Hlayers) (Hne' & Hdim' & Hlayers') Hin Hx Hx' _ _ Hk.
  destruct (palettize_mode_returns Default m points layers nl z
              Hdim Hne Hlayers) as (stf & _ & Hwalk & Hrun).
  destruct (palettize_mode_returns Default m points' layers nl z
              Hdim' Hne' Hlayers') as (stf' & _ & Hwalk' & Hrun').
  destruct (palettize_mode_entry Default m points layers nl z Hdim Hne
              Hlayers stf idx Hwalk Hin) as (x0 & w & Hx0 & _ & He).
  destruct (palettize_mode_entry Default m points' layers nl z Hdim' Hne'
              Hlayers' stf' idx Hwalk' Hin) as (x1 & w' & Hx1 & _ & He').
  assert (x0 = x) by congruence. subst x0.
  assert (x1 = map (Rmult k) x) by congruence. subst x1.
  rewrite preprocessed_default_scale, uv_of_default_scale in He'
    by (apply pow_lt; exact Hk).
  exists (palette_coords stf), (palette_coords stf').
  do 2 eexists. exists w, w'. simpl in Hrun, Hrun'. eauto.
Qed.

Lemma normalized_scale_invariant_witness :
  well_formed 2 [[1; 3]] [[0]%Z] /\
  well_formed 2 [[2 * 1; 2 * 3]] [[0]%Z] /\
  Forall (fun c => 0 <= c) [1; 3] /\
  0 < sum_R (map (fun c => c ^ 1) [1; 3]) /\
  0 < 2 /\
  exists pc pc' u v w w',
    palettize [[1; 3]] [[0]%Z] 0 1 = inr pc /\
    palettize [[2 * 1; 2 * 3]] [[0]%Z] 0 1 = inr pc' /\
    pc !! 0%Z = Some [u; v; w] /\
    pc' !! 0%Z = Some [u; v; w'].
Proof.
  assert (Hwf : well_formed 2 [[1; 3]] [[0]%Z]).
  { repeat split; [discriminate | repeat constructor |].
    repeat constructor; unfold valid_index; simpl; lia. }
  assert (Hwf' : well_formed 2 [[2 * 1; 2 * 3]] [[0]%Z]).
  { repeat split; [discriminate | repeat constructor |].
    repeat constructor; unfold valid_index; simpl; lia. }
  assert (Hnn : Forall (fun c => 0 <= c) [1; 3])
    by (repeat constructor; lra).
  assert (Hsum : 0 < sum_R (map (fun c => c ^ 1) [1; 3]))
    by (simpl; lra).
  assert (Hk : 0 < 2) by lra.
  repeat (split; [assumption |]).
  apply (normalized_scale_invariant 2 [[1; 3]] [[2 * 1; 2 * 3]] [[0]%Z]
           0 1 0 [1; 3] 2 Hwf Hwf'); try assumption.
  - simpl. apply list_elem_of_In. simpl. auto.
  - reflexivity.
  - reflexivity.
Defined.

(** C2.  When [n_layers == 0], or the number of layers supplied is at most
    [n_layers], the visit of an index listed in the [j]-th layer (0-based)
    writes the depth [w = -j * zgap], the layer-indexed track; the entry
    stays in the returned mapping unless a later visit of the same index
    overwrites it.  In particular, with layers [[0,1],[2,3]], [zgap = 1.0]
    and [n_layers = 0], points 0 and 1 get [w = 0.0] and points 2 and 3 get
    [w = -1.0]; with the single layer [0,1,2,3] and [n_layers = 2] all four
    points get [w = 0.0]. *)
Theorem layer_indexed_depth :
  (forall md m points layers nl z,
     well_formed m points layers ->
     (nl = 0 \/ Z.of_nat (length layers) <= nl)%Z ->
     exists env pc,
       env_of md points layers nl z = inr env /\
       palettize_mode md points layers nl z = inr pc /\
       forall pre l1 idx l2 post,
         layers = pre ++ (l1 ++ idx :: l2) :: post ->
         exists st u v,
           walk_upto env pre (l1 ++ [idx]) = inr st /\
           palette_coords st !! idx =
             Some [u; v; - INR (length pre) * z] /\
           (idx ∉ l2 -> idx ∉ concat post ->
            pc !! idx = Some [u; v; - INR (length pre) * z])) /\
  (forall md m points,
     well_formed m points [[0; 1]; [2; 3]]%Z ->
     exists pc u0 v0 u1 v1 u2 v2 u3 v3,
       palettize_mode md points [[0; 1]; [2; 3]]%Z 0 1 = inr pc /\
       pc !! 0%Z = Some [u0; v0; 0] /\ pc !! 1%Z = Some [u1; v1; 0] /\
       pc !! 2%Z = Some [u2; v2; -1] /\ pc !! 3%Z = Some [u3; v3; -1]) /\
  (forall md m points z,
     well_formed m points [[0; 1; 2; 3]]%Z ->
     exists pc u0 v0 u1 v1 u2 v2 u3 v3,
       palettize_mode md points [[0; 1; 2; 3]]%Z 2 z = inr pc /\
       pc !! 0%Z = Some [u0; v0; 0] /\ pc !! 1%Z = Some [u1; v1; 0] /\
       pc !! 2%Z = Some [u2; v2; 0] /\ pc !! 3%Z = Some [u3; v3; 0]).
Proof.
  assert (General : forall md m points layers nl z,
     well_formed m points layers ->
     (nl = 0 \/ Z.of_nat (length layers) <= nl)%Z ->
     exists env pc,
       env_of md points layers nl z = inr env /\
       palettize_mode md points layers nl z = inr pc /\
       forall pre l1 idx l2 post,
         layers = pre ++ (l1 ++ idx :: l2) :: post ->
         exists st u v,
           walk_upto env pre (l1 ++ [idx]) = inr st /\
           palette_coords st !! idx =
             Some [u; v; - INR (length pre) * z] /\
           (idx ∉ l2 -> idx ∉ concat post ->
            pc !! idx = Some [u; v; - INR (length pre) * z])).
  { intros md m points layers nl z (Hne & Hdim & Hlayers) Hsel.
    destruct (palettize_mode_returns md m points layers nl z
                Hdim Hne Hlayers) as (stf & Henv & Hwalk & Hrun).
    set (env := loop_env md m points layers nl z) in *.
    exists env, (palette_coords stf).
    split; [exact Henv |]. split; [exact Hrun |].
    intros pre l1 idx l2 post Hcut.
    destruct (walk_cut env layers stf pre l1 idx l2 post Hwalk Hcut)
      as (st & st' & _ & Hvisit & Hupto & Hwl & Hlast).
    destruct (visit_entry _ _ _ _ Hvisit) as (u & v & He).
    assert (Huse : use_wl env = true).
    { unfold use_wl. simpl. destruct Hsel as [-> | Hle]; [reflexivity |].
      apply orb_true_iff. right. apply Z.leb_le, Hle. }
    rewrite Huse, Hwl in He. simpl in He.
    exists st', u, v. split; [exact Hupto |]. split; [exact He |].
    intros Hl2 Hpost. rewrite (Hlast Hl2 Hpost). exact He. }
  split; [exact General |]. split.
  - intros md m points Hwf.
    destruct (General md m points _ 0%Z 1 Hwf (or_introl eq_refl))
      as (env & pc & _ & Hrun & Hcut).
    destruct (Hcut [] [] 0%Z [1%Z] [[2; 3]%Z] eq_refl)
      as (_ & u0 & v0 & _ & _ & H0).
    destruct (Hcut [] [0%Z] 1%Z [] [[2; 3]%Z] eq_refl)
      as (_ & u1 & v1 & _ & _ & H1).
    destruct (Hcut [[0; 1]%Z] [] 2%Z [3%Z] [] eq_refl)
      as (_ & u2 & v2 & _ & _ & H2).
    destruct (Hcut [[0; 1]%Z] [2%Z] 3%Z [] [] eq_refl)
      as (_ & u3 & v3 & _ & _ & H3).
    exists pc, u0, v0, u1, v1, u2, v2, u3, v3.
    split; [exact Hrun |].
    rewrite H0, H1, H2, H3 by (simpl; set_solver).
    simpl. repeat split; do 4 f_equal; lra.
  - intros md m points z Hwf.
    assert (Hsel : (2 = 0 \/ Z.of_nat (length [[0; 1; 2; 3]%Z]) <= 2)%Z)
      by (right; simpl; lia).
    destruct (General md m points _ 2%Z z Hwf Hsel)
      as (env & pc & _ & Hrun & Hcut).
    destruct (Hcut [] [] 0%Z [1; 2; 3]%Z [] eq_refl)
      as (_ & u0 & v0 & _ & _ & H0).
    destruct (Hcut [] [0%Z] 1%Z [2; 3]%Z [] eq_refl)
      as (_ & u1 & v1 & _ & _ & H1).
    destruct (Hcut [] [0; 1]%Z 2%Z [3%Z] [] eq_refl)
      as (_ & u2 & v2 & _ & _ & H2).
    destruct (Hcut [] [0; 1; 2]%Z 3%Z [] [] eq_refl)
      as (_ & u3 & v3 & _ & _ & H3).
    exists pc, u0, v0, u1, v1, u2, v2, u3, v3.
    split; [exact Hrun |].
    rewrite H0, H1, H2, H3 by (simpl; set_solver).
    simpl. repeat split; do 4 f_equal; lra.
Qed.

Lemma layer_indexed_depth_witness :
  well_formed 2 [[1; 0]; [0; 1]; [1; 1]; [0; 0]] [[0; 1]; [2; 3]]%Z /\
  exists pc u0 v0 u1 v1 u2 v2 u3 v3,
    palettize [[1; 0]; [0; 1]; [1; 1]; [0; 0]] [[0; 1]; [2; 3]]%Z 0 1
      = inr pc /\
    pc !! 0%Z = Some [u0; v0; 0] /\ pc !! 1%Z = Some [u1; v1; 0] /\
    pc !! 2%Z = Some [u2; v2; -1] /\ pc !! 3%Z = Some [u3; v3; -1].
Proof.
  assert (Hwf : well_formed 2 [[1; 0]; [0; 1]; [1; 1]; [0; 0]]
                  [[0; 1]; [2; 3]]%Z).
  { repeat split; [discriminate | repeat constructor |].
    repeat constructor; unfold valid_index; simpl; lia. }
  split; [exact Hwf |].
  exact (proj1 (proj2 layer_indexed_depth) Default 2%nat _ Hwf).
Defined.

(** C3.  When [n_layers > 0] and more layers are supplied than [n_layers],
    [points_per_layer] is the quotient [len(points) / n_layers], and every
    visit writes the depth of the count-indexed track [wc].  Before the
    visit number [k] (0-based, counted over the whole walk, layer after
    layer) the counter is [k mod c] and [wc = -(k / c) * zgap], [c] being
    the least whole number that reaches [points_per_layer]: [wc] starts at
    0, the counter goes up by one per visit, and exactly when it reaches or
    exceeds [points_per_layer] it is reset to 0 and [wc] is decremented by
    [zgap]; the end of a layer resets nothing. *)
Theorem count_indexed_depth
    (md : mode) (m : nat) (points : list (list R))
    (layers : list (list Z)) (nl : Z) (z : R) :
  well_formed m points layers ->
  (0 < nl)%Z ->
  (nl < Z.of_nat (length layers))%Z ->
  exists env pc,
    env_of md points layers nl z = inr env /\
    palettize_mode md points layers nl z = inr pc /\
    points_per_layer env = Finite (INR (length points) / IZR nl) /\
    forall pre l1 idx l2 post,
      layers = pre ++ (l1 ++ idx :: l2) :: post ->
      exists st st' u v,
        walk_upto env pre l1 = inr st /\
        visit env st idx = inr st' /\
        walk_upto env pre (l1 ++ [idx]) = inr st' /\
        palette_coords st' !! idx = Some [u; v; wc st] /\
        (let k := visits_before pre l1 in
         let c := bucket_size (length points) nl in
         count st = (k mod c)%Z /\ wc st = - IZR (k / c) * z) /\
        (INR (length points) / IZR nl <= IZR (count st + 1) ->
         count st' = 0%Z /\ wc st' = wc st - z) /\
        (IZR (count st + 1) < INR (length points) / IZR nl ->
         count st' = (count st + 1)%Z /\ wc st' = wc st) /\
        (idx ∉ l2 -> idx ∉ concat post ->
         pc !! idx = Some [u; v; wc st]).
Proof.
  intros (Hne & Hdim & Hlayers) Hnl Hmore.
  destruct (palettize_mode_returns md m points layers nl z
              Hdim Hne Hlayers) as (stf & Henv & Hwalk & Hrun).
  set (env := loop_env md m points layers nl z) in *.
  assert (Hppl : points_per_layer env =
                 Finite (INR (length points) / IZR nl)).
  { simpl. unfold points_per_layer_of.
    destruct (Z.ltb_spec 0 nl); [reflexivity | lia]. }
  exists env, (palette_coords stf).
  split; [exact Henv |]. split; [exact Hrun |]. split; [exact Hppl |].
  intros pre l1 idx l2 post Hcut.
  destruct (walk_cut env layers stf pre l1 idx l2 post Hwalk Hcut)
    as (st & st' & Hbefore & Hvisit & Hupto & _ & Hlast).
  destruct (visit_entry _ _ _ _ Hvisit) as (u & v & He).
  assert (Huse : use_wl env = false).
  { unfold use_wl. simpl. apply orb_false_iff. split.
    - apply Z.eqb_neq. lia.
    - apply Z.leb_gt. exact Hmore. }
  rewrite Huse in He.
  exists st, st', u, v.
  split; [exact Hbefore |]. split; [exact Hvisit |].
  split; [exact Hupto |]. split; [exact He |].
  assert (Hpts : (0 < length points)%nat)
    by (destruct points; [congruence | simpl; lia]).
  split; [| split; [| split]].
  - unfold walk_upto in Hbefore.
    apply bind_inr in Hbefore as (st0 & H0 & H1).
    pose proof (initial_on_track env (length points) Hpts) as Htrack.
    apply (walk_layers_on_track env (length points) Hnl Hpts eq_refl
             _ _ _ _ H0) in Htrack.
    apply (walk_layer_on_track env (length points) Hnl Hpts eq_refl
             _ _ _ _ H1) in Htrack.
    destruct Htrack as (_ & Hcount & Hwc). simpl in Hcount, Hwc.
    rewrite Z.add_0_l in Hcount, Hwc.
    unfold visits_before. rewrite Nat2Z.inj_add. split; assumption.
  - intros Hreach.
    destruct (visit_inr _ _ _ _ Hvisit)
      as (_ & _ & _ & _ & _ & _ & _ & Hwc' & Hc').
    rewrite Hppl in Hwc', Hc'.
    apply count_reaches_finite in Hreach. rewrite Hreach in Hwc', Hc'.
    split; assumption.
  - intros Hbelow.
    destruct (visit_inr _ _ _ _ Hvisit)
      as (_ & _ & _ & _ & _ & _ & _ & Hwc' & Hc').
    rewrite Hppl in Hwc', Hc'.
    destruct (count_reaches (count st + 1) _) eqn:Hreach.
    + apply count_reaches_finite in Hreach. lra.
    + split; assumption.
  - intros Hl2 Hpost. rewrite (Hlast Hl2 Hpost). exact He.
Qed.

Lemma count_indexed_depth_witness :
  well_formed 2 [[1; 0]; [0; 1]; [1; 1]; [0; 0]] [[0]; [1]; [2; 3]]%Z /\
  (0 < 2)%Z /\
  (2 < Z.of_nat (length [[0]; [1]; [2; 3]]%Z))%Z /\
  exists pc u v,
    palettize [[1; 0]; [0; 1]; [1; 1]; [0; 0]] [[0]; [1]; [2; 3]]%Z 2 1
      = inr pc /\
    pc !! 2%Z = Some [u; v; -1].
Proof.
  assert (Hwf : well_formed 2 [[1; 0]; [0; 1]; [1; 1]; [0; 0]]
                  [[0]; [1]; [2; 3]]%Z).
  { repeat split; [discriminate | repeat constructor |].
    repeat constructor; unfold valid_index; simpl; lia. }
  assert (Hnl : (0 < 2)%Z) by lia.
  assert (Hmore : (2 < Z.of_nat (length [[0]; [1]; [2; 3]]%Z))%Z)
    by (simpl; lia).
  split; [exact Hwf |]. split; [exact Hnl |]. split; [exact Hmore |].
  destruct (count_indexed_depth Default 2 _ _ 2 1 Hwf Hnl Hmore)
    as (env & pc & _ & Hrun & _ & Hcut).
  destruct (Hcut [[0]; [1]]%Z [] 2%Z [3%Z] [] eq_refl)
    as (st & st' & u & v & _ & _ & _ & _ & (_ & Hwc) & _ & _ & Hlast).
  exists pc, u, v. split; [exact Hrun |].
  rewrite Hlast.
  - rewrite Hwc.
    match goal with
    | |- context [IZR (?k / ?c)] => replace (k / c)%Z with 1%Z by reflexivity
    end.
    do 4 f_equal. lra.
  - intros Hin. apply list_elem_of_In in Hin. simpl in Hin.
    destruct Hin as [Hin | []]. discriminate.
  - simpl. intros Hin. apply list_elem_of_In in Hin. exact Hin.
Defined.

(** C7.  Whenever one of the three variants returns a mapping, its key set
    is exactly the set of the indices that appear in the layers, and the
    entry of an index is the one its last visit in walk order wrote, that
    is the [[u, v, w]] computed at that visit: [(u, v)] from the point of
    the index, [w] the value the selected track has just before the visit
    ([wl], which is [-j * zgap] in the [j]-th layer, or [wc]).  What an
    earlier visit of the same index wrote is gone.  On well-formed input the
    variant does return. *)
Theorem mapping_keys
    (md : mode) (points : list (list R)) (layers : list (list Z))
    (nl : Z) (z : R) :
  (forall pc,
     palettize_mode md points layers nl z = inr pc ->
     dom pc = list_to_set (concat layers) /\
     forall pre l1 idx l2 post,
       layers = pre ++ (l1 ++ idx :: l2) :: post ->
       idx ∉ l2 -> idx ∉ concat post ->
       exists env st f u v,
         env_of md points layers nl z = inr env /\
         walk_upto env pre l1 = inr st /\
         py_getitem (points_ env) idx = inr f /\
         uv_rule env (axis_set env) f = inr (u, v) /\
         wl st = - INR (length pre) * zgap env /\
         pc !! idx = Some [u; v; if use_wl env then wl st else wc st]) /\
  (forall m,
     well_formed m points layers ->
     exists pc, palettize_mode md points layers nl z = inr pc).
Proof.
  split.
  - intros pc Hrun. rewrite palettize_mode_unfold in Hrun.
    apply bind_inr in Hrun as (env & Henv & Hrun).
    apply bind_inr in Hrun as (stf & Hwalk & [= <-]).
    split.
    + destruct (walk_layers_inv _ _ _ _ Hwalk) as (_ & Hdom & _).
      rewrite Hdom. simpl. rewrite dom_empty_L. set_solver.
    + intros pre l1 idx l2 post Hcut Hl2 Hpost.
      destruct (walk_cut env layers stf pre l1 idx l2 post Hwalk Hcut)
        as (st & st' & Hbefore & Hvisit & _ & Hwl & Hlast).
      destruct (visit_inr _ _ _ _ Hvisit)
        as (f & u & v & Hf & Huv & Hpc & _).
      exists env, st, f, u, v.
      split; [exact Henv |]. split; [exact Hbefore |].
      split; [exact Hf |]. split; [exact Huv |]. split; [exact Hwl |].
      rewrite (Hlast Hl2 Hpost), Hpc. apply lookup_insert_eq.
  - intros m (Hne & Hdim & Hlayers).
    destruct (palettize_mode_returns md m points layers nl z
                Hdim Hne Hlayers) as (stf & _ & _ & Hrun).
    eauto.
Qed.

(** Index 0 is listed in layers 0 and 1: its entry is the one of layer 1. *)
Lemma mapping_keys_witness :
  well_formed 2 [[1; 0]; [0; 1]] [[0; 1]; [0]]%Z /\
  exists pc u v,
    palettize [[1; 0]; [0; 1]] [[0; 1]; [0]]%Z 0 1 = inr pc /\
    dom pc = list_to_set (concat [[0; 1]; [0]]%Z) /\
    pc !! 0%Z = Some [u; v; -1].
Proof.
  assert (Hwf : well_formed 2 [[1; 0]; [0; 1]] [[0; 1]; [0]]%Z).
  { repeat split; [discriminate | repeat constructor |].
    repeat constructor; unfold valid_index; simpl; lia. }
  split; [exact Hwf |].
  destruct (mapping_keys Default [[1; 0]; [0; 1]] [[0; 1]; [0]]%Z 0 1)
    as [Hkeys Hret].
  destruct (Hret 2%nat Hwf) as [pc Hrun].
  destruct (Hkeys pc Hrun) as [Hdom Hlast].
  destruct (Hlast [[0; 1]%Z] [] 0%Z [] [] eq_refl)
    as (env & st & f & u & v & Henv & _ & _ & _ & Hwl & He).
  - intros Hin. apply list_elem_of_In in Hin. exact Hin.
  - simpl. intros Hin. apply list_elem_of_In in Hin. exact Hin.
  - exists pc, u, v. split; [exact Hrun |]. split; [exact Hdom |].
    destruct Hwf as (Hne & Hdim & _).
    rewrite (env_of_well_formed Default 2 _ _ _ _ Hne Hdim) in Henv.
    injection Henv as <-.
    rewrite He, Hwl. simpl. do 4 f_equal. lra.
Defined.

(** C6.  The element expression of [logistic_map] with [A = 15.0] is
    [remap v = (sigma (A * (v - 0.5)) - p) / (q - p)], where [sigma] is the
    standard logistic function, [p = sigma (-A/2)] and [q = sigma (A/2)];
    [remap] is strictly increasing, and
    [remap 0.5 = (0.5 - p) / (q - p)]. *)
Theorem logistic_remap_monotone :
  sharpness = 15 /\
  logistic_p 15 = sigma (- sharpness / 2) /\
  logistic_q 15 = sigma (sharpness / 2) /\
  (forall v, logistic_elem 15 v = inr (remap v)) /\
  (forall points, logistic_map points 15 = inr (map (map remap) points)) /\
  (forall v1 v2, v1 < v2 -> remap v1 < remap v2) /\
  remap 0.5 =
    (0.5 - sigma (- sharpness / 2))
    / (sigma (sharpness / 2) - sigma (- sharpness / 2)).
Proof.
  split; [reflexivity |].
  split; [apply logistic_p_sigma |].
  split; [apply logistic_q_sigma |].
  split; [exact logistic_elem_15 |].
  split; [exact logistic_map_15 |].
  pose proof sigma_span_pos as Hspan.
  split.
  - intros v1 v2 Hlt. unfold remap.
    apply Rmult_lt_compat_r; [apply Rinv_0_lt_compat, Hspan |].
    assert (sigma (sharpness * (v1 - 0.5)) < sigma (sharpness * (v2 - 0.5))).
    { apply sigma_increasing. unfold sharpness. lra. }
    lra.
  - unfold remap. f_equal. f_equal.
    replace (sharpness * (0.5 - 0.5)) with 0 by ring.
    unfold sigma. rewrite Ropp_0, exp_0. lra.
Qed.

Lemma logistic_remap_monotone_witness : 0 < 1 /\ remap 0 < remap 1.
Proof.
  assert (H01 : 0 < 1) by lra.
  split; [exact H01 |].
  exact (proj1 (proj2 (proj2 (proj2 (proj2 (proj2
           logistic_remap_monotone))))) 0 1 H01).
Defined.

(** C4, as the code has it.  On a collection with a negative coordinate and
    a non-integral [factor], [scale] does not return a collection of reals:
    if it returns at all, every negative coordinate has become a complex
    number.  It need not fail (see below). *)
Theorem scale_negative_fractional
    (points : list (list R)) (factor : R) :
  Exists (Exists (fun f => f < 0)) points ->
  is_integral factor = false ->
  forall res,
    scale points factor = inr res ->
    Forall2 (Forall2 (fun f y =>
               py_pow f factor = inr y /\
               (f < 0 -> exists re im, y = PyComplex re im)))
            points res /\
    Exists (Exists (fun y => exists re im, y = PyComplex re im)) res.
Proof.
  intros Hneg Hfrac res Hs.
  unfold scale in Hs. apply comprehension_inr in Hs.
  assert (Hall : Forall2 (Forall2 (fun f y =>
                   py_pow f factor = inr y /\
                   (f < 0 -> exists re im, y = PyComplex re im)))
                         points res).
  { eapply Forall2_impl; [exact Hs |]. intros point row Hrow. simpl in Hrow.
    apply comprehension_inr in Hrow.
    eapply Forall2_impl; [exact Hrow |]. intros f y Hy. simpl in Hy.
    split; [exact Hy |]. intros Hf.
    rewrite (py_pow_negative_fractional f factor Hf Hfrac) in Hy.
    injection Hy as <-. eauto. }
  split; [exact Hall |].
  clear Hs. induction Hall as [| point row points res Hrow _ IH].
  - inversion Hneg.
  - inversion Hneg as [? ? Hp | ? ? Hps]; subst.
    + left. clear IH Hneg.
      induction Hrow as [| f y point row [_ Hy] _ IHrow].
      * inversion Hp.
      * inversion Hp as [? ? Hf | ? ? Hfs]; subst.
        -- left. apply Hy, Hf.
        -- right. apply IHrow, Hfs.
    + right. apply IH, Hps.
Qed.

Lemma scale_imaginary_unit : scale [[-1]] (1 / 2) = inr [[PyComplex 0 1]].
Proof.
  unfold scale. simpl.
  rewrite (py_pow_negative_fractional (-1) (1 / 2))
    by (lra || exact is_integral_half).
  simpl. unfold ret. do 3 f_equal.
  replace (- -1) with 1 by lra. rewrite Rpower_one.
  replace (PI * (1 / 2)) with (PI / 2) by lra.
  rewrite cos_PI2, sin_PI2. f_equal; lra.
Qed.

Lemma scale_negative_fractional_witness :
  Exists (Exists (fun f => f < 0)) [[-1]] /\
  is_integral (1 / 2) = false /\
  scale [[-1]] (1 / 2) = inr [[PyComplex 0 1]] /\
  Exists (Exists (fun y => exists re im, y = PyComplex re im))
         [[PyComplex 0 1]].
Proof.
  assert (Hneg : Exists (Exists (fun f => f < 0)) [[-1]])
    by (do 2 left; lra).
  split; [exact Hneg |]. split; [exact is_integral_half |].
  split; [exact scale_imaginary_unit |].
  exact (proj2 (scale_negative_fractional [[-1]] (1 / 2) Hneg
                  is_integral_half [[PyComplex 0 1]] scale_imaginary_unit)).
Defined.

(** C4 as stated fails: [scale([[-1.0]], 0.5)] raises nothing and returns
    the collection holding the imaginary unit. *)
Lemma scale_negative_fractional_returns :
  Exists (Exists (fun f => f < 0)) [[-1]] /\
  is_integral (1 / 2) = false /\
  scale [[-1]] (1 / 2) = inr [[PyComplex 0 1]].
Proof.
  split; [do 2 left; lra |]. split; [exact is_integral_half |].
  unfold scale. simpl.
  rewrite (py_pow_negative_fractional (-1) (1 / 2))
    by (lra || exact is_integral_half).
  simpl. unfold ret. do 3 f_equal.
  replace (- -1) with 1 by lra. rewrite Rpower_one.
  replace (PI * (1 / 2)) with (PI / 2) by lra.
  rewrite cos_PI2, sin_PI2. f_equal; lra.
Qed.

Lemma stored_nums_keeps h h' p rows :
  keeps h h' -> stored_nums h p rows -> stored_nums h' p rows.
Proof.
  intros Hk (rs & Hp & Hrows). exists rs. split; [apply Hk, Hp |].
  eapply Forall2_impl; [exact Hrows |]. intros r x. apply Hk.
Qed.

Lemma stored_keeps h h' p pts : keeps h h' -> stored h p pts -> stored h' p pts.
Proof. apply stored_nums_keeps. Qed.

Lemma sample_store_stored : stored sample_store 0%nat [[1; 2]].
Proof.
  exists [1%nat]. split; [reflexivity |]. repeat constructor.
Qed.

(** [swap_columns], for contrast, does write into the rows of its argument:
    the frame property below is not one every function of the file has. *)
Lemma h_swap_columns_writes :
  fst (h_swap_columns 0%nat 0 1 sample_store) !! 1%nat =
  Some (OList [VNum (PyFloat 2); VNum (PyFloat 1)]).
Proof. vm_compute. reflexivity. Qed.

(** C9.  A call of any of the three variants leaves every object of the
    caller's store as it was, whether it returns or raises; so the point
    collection it was given, outer list and rows, is unchanged.  [scale],
    [reverse_normalize] and [logistic_map] write nothing into their argument
    either, and the collection they return is newly built: a new outer list
    of new rows. *)
Theorem caller_points_unchanged (h : gmap loc object) (points : loc) :
  (forall md layers nl z,
     keeps h (fst (h_palettize_mode md points layers nl z h)) /\
     forall pts,
       stored h points pts ->
       stored (fst (h_palettize_mode md points layers nl z h)) points pts) /\
  (forall factor,
     keeps h (fst (h_scale points factor h)) /\
     (forall pts,
        stored h points pts ->
        stored (fst (h_scale points factor h)) points pts) /\
     (forall l,
        snd (h_scale points factor h) = inr l ->
        fresh_rows h l (fst (h_scale points factor h)))) /\
  (keeps h (fst (h_reverse_normalize points h)) /\
   (forall pts,
      stored h points pts ->
      stored (fst (h_reverse_normalize points h)) points pts) /\
   (forall l,
      snd (h_reverse_normalize points h) = inr l ->
      fresh_rows h l (fst (h_reverse_normalize points h)))) /\
  (forall A,
     keeps h (fst (h_logistic_map points A h)) /\
     (forall pts,
        stored h points pts ->
        stored (fst (h_logistic_map points A h)) points pts) /\
     (forall l,
        snd (h_logistic_map points A h) = inr l ->
        fresh_rows h l (fst (h_logistic_map points A h)))).
Proof.
  assert (Rebuild : forall g,
            keeps h (fst (h_rebuild g points h)) /\
            (forall pts,
               stored h points pts ->
               stored (fst (h_rebuild g points h)) points pts) /\
            (forall l,
               snd (h_rebuild g points h) = inr l ->
               fresh_rows h l (fst (h_rebuild g points h)))).
  { intros g.
    destruct (h_rebuild_spec h g points h (keeps_refl h) I) as [Hk Hfresh].
    split; [exact Hk |]. split; [| exact Hfresh].
    intros pts. apply stored_keeps, Hk. }
  split; [| split; [| split]].
  - intros md layers nl z.
    destruct (h_palettize_mode_spec h md points layers nl z h
                (keeps_refl h) I) as [Hk _].
    split; [exact Hk |]. intros pts. apply stored_keeps, Hk.
  - intros factor. apply Rebuild.
  - apply Rebuild.
  - intros A. apply Rebuild.
Qed.

Lemma caller_points_unchanged_witness :
  stored sample_store 0%nat [[1; 2]] /\
  stored (fst (h_palettize 0%nat [[0]%Z] 0 1 sample_store)) 0%nat [[1; 2]] /\
  stored (fst (h_scale 0%nat 2 sample_store)) 0%nat [[1; 2]].
Proof.
  split; [exact sample_store_stored |]. split.
  - exact (proj2 (proj1 (caller_points_unchanged sample_store 0%nat)
                    Default [[0]%Z] 0%Z 1)
             [[1; 2]] sample_store_stored).
  - exact (proj1 (proj2 (proj1 (proj2
             (caller_points_unchanged sample_store 0%nat)) 2))
             [[1; 2]] sample_store_stored).
Defined.

(** * Further properties of the code *)

(** ** The preprocessors *)

Lemma comprehension_fails {A B : Type} (g : A -> pyres B) (l : list A) :
  Exists (fun x => exists e, g x = inl e) l ->
  exists e, comprehension g l = inl e.
Proof.
  induction 1 as [x l [e He] | x l _ [e IH]]; simpl.
  - rewrite He. simpl. eauto.
  - destruct (g x) as [e' | y]; simpl; [eauto |].
    rewrite IH. simpl. eauto.
Qed.

Lemma comprehension_length {A B : Type} (g : A -> pyres B) l ys :
  comprehension g l = inr ys -> length ys = length l.
Proof.
  intros H. apply comprehension_inr in H.
  symmetry. eapply Forall2_length, H.
Qed.

Lemma py_pow_zero_negative (y : R) :
  y < 0 -> py_pow 0 y = inl ZeroDivisionError.
Proof.
  intros Hy. unfold py_pow.
  destruct (Req_dec_T y 0); [lra |].
  destruct (Req_dec_T 0 0); [| lra].
  destruct (Rlt_dec y 0); [reflexivity | lra].
Qed.

(** X1.  [reverse_normalize] is its own inverse (in exact arithmetic):
    reversing a collection twice gives the collection back, whatever the
    range of its coordinates. *)
Theorem reverse_normalize_involutive (points : list (list R)) :
  reverse_normalize (reverse_normalize points) = points.
Proof.
  unfold reverse_normalize. rewrite map_map.
  rewrite <- (map_id points) at 2. apply map_ext. intros point.
  rewrite map_map. rewrite <- (map_id point) at 2.
  apply map_ext. intros f. ring.
Qed.

(** X2.  ZeroDivisionError and [scale]: if [scale] raises it, the factor
    is negative and some coordinate is 0; with a negative factor and a
    coordinate 0 the call does not return; and a result, when there is one,
    has the shape of the argument. *)
Theorem scale_zero_division (points : list (list R)) (factor : R) :
  (scale points factor = inl ZeroDivisionError ->
   factor < 0 /\ Exists (Exists (fun f => f = 0)) points) /\
  (factor < 0 -> Exists (Exists (fun f => f = 0)) points ->
   exists e, scale points factor = inl e) /\
  (forall res,
     scale points factor = inr res ->
     Forall2 (fun point row => length row = length point) points res).
Proof.
  split; [| split].
  - intros Hs. unfold scale in Hs. apply comprehension_inl_Exists in Hs.
    apply List.Exists_exists in Hs as (point & Hin & Hp). simpl in Hp.
    apply comprehension_inl_Exists in Hp.
    apply List.Exists_exists in Hp as (f & Hf & Hpow).
    apply py_pow_inl in Hpow as (_ & -> & Hlt).
    split; [exact Hlt |].
    apply List.Exists_exists. exists point. split; [exact Hin |].
    apply List.Exists_exists. exists 0. auto.
  - intros Hlt Hz. unfold scale. apply comprehension_fails.
    eapply List.Exists_impl; [| exact Hz]. intros point Hp. simpl.
    apply comprehension_fails.
    eapply List.Exists_impl; [| exact Hp]. intros f ->. simpl.
    exists ZeroDivisionError. apply py_pow_zero_negative, Hlt.
  - intros res Hs. unfold scale in Hs. apply comprehension_inr in Hs.
    eapply Forall2_impl; [exact Hs |]. intros point row Hrow. simpl in Hrow.
    eapply comprehension_length, Hrow.
Qed.

(** X3.  The two exponents that need no arithmetic: [scale(points, 1.0)]
    returns the coordinates as they are, and [scale(points, 0.0)] returns
    1.0 for every coordinate, a coordinate 0.0 included. *)
Theorem scale_unit_exponents (points : list (list R)) :
  scale points 1 = inr (map (map PyFloat) points) /\
  scale points 0 = inr (map (map (fun _ => PyFloat 1)) points).
Proof.
  split; unfold scale.
  - apply comprehension_total, List.Forall_forall. intros point _.
    apply comprehension_total, List.Forall_forall. intros f _.
    apply py_pow_1.
  - apply comprehension_total, List.Forall_forall. intros point _.
    apply comprehension_total, List.Forall_forall. intros f _.
    unfold py_pow. destruct (Req_dec_T 0 0); [reflexivity | lra].
Qed.

Lemma scale_zero_division_witness :
  -1 < 0 /\
  Exists (Exists (fun f => f = 0)) [[2; 0]] /\
  exists e, scale [[2; 0]] (-1) = inl e.
Proof.
  assert (Hlt : -1 < 0) by lra.
  assert (Hz : Exists (Exists (fun f => f = 0)) [[2; 0]])
    by (left; right; left; reflexivity).
  split; [exact Hlt |]. split; [exact Hz |].
  exact (proj1 (proj2 (scale_zero_division [[2; 0]] (-1))) Hlt Hz).
Defined.

(** ** The logistic remap *)

Lemma sigma_opp (x : R) : sigma (- x) = 1 - sigma x.
Proof.
  unfold sigma. rewrite Ropp_involutive, exp_Ropp.
  pose proof (exp_pos x). field. split; lra.
Qed.

Lemma remap_0 : remap 0 = 0.
Proof.
  unfold remap. pose proof sigma_span_pos.
  replace (sharpness * (0 - 0.5)) with (- sharpness / 2) by lra.
  unfold Rdiv at 1. rewrite Rminus_diag. ring.
Qed.

Lemma remap_1 : remap 1 = 1.
Proof.
  unfold remap. pose proof sigma_span_pos.
  replace (sharpness * (1 - 0.5)) with (sharpness / 2) by lra.
  field. lra.
Qed.

Lemma remap_increasing (v1 v2 : R) : v1 < v2 -> remap v1 < remap v2.
Proof.
  intros Hlt. unfold remap. pose proof sigma_span_pos as Hspan.
  apply Rmult_lt_compat_r; [apply Rinv_0_lt_compat, Hspan |].
  assert (sigma (sharpness * (v1 - 0.5)) < sigma (sharpness * (v2 - 0.5))).
  { apply sigma_increasing. unfold sharpness. lra. }
  lra.
Qed.

Lemma remap_unit_interval (v : R) : 0 <= v <= 1 -> 0 <= remap v <= 1.
Proof.
  intros [H0 H1]. split.
  - destruct H0 as [H0 | <-]; [| rewrite remap_0; lra].
    rewrite <- remap_0. left. apply remap_increasing, H0.
  - destruct H1 as [H1 | ->]; [| rewrite remap_1; lra].
    rewrite <- remap_1. left. apply remap_increasing, H1.
Qed.

(** X4.  The remap of [logistic_map] with [A = 15.0] fixes 0 and 1, keeps
    the unit interval inside the unit interval, and is symmetric about the
    midpoint: [remap (1 - v) = 1 - remap v].  So a collection with all its
    coordinates in [0, 1] is mapped, without an exception, to one with all
    its coordinates in [0, 1]. *)
Theorem logistic_map_unit_interval :
  remap 0 = 0 /\ remap 1 = 1 /\
  (forall v, remap (1 - v) = 1 - remap v) /\
  (forall points,
     Forall (Forall (fun v => 0 <= v <= 1)) points ->
     exists res,
       logistic_map points 15 = inr res /\
       Forall2 (Forall2 (fun v y => y = remap v /\ 0 <= y <= 1)) points res).
Proof.
  split; [exact remap_0 |]. split; [exact remap_1 |]. split.
  - intros v. unfold remap. pose proof sigma_span_pos as Hspan.
    replace (sharpness * (1 - v - 0.5)) with (- (sharpness * (v - 0.5)))
      by lra.
    replace (- sharpness / 2) with (- (sharpness / 2)) in * by lra.
    rewrite !sigma_opp in *. field. lra.
  - intros points Hall. exists (map (map remap) points).
    split; [apply logistic_map_15 |].
    apply Forall2_fmap_r, Forall_Forall2_diag.
    eapply List.Forall_impl; [| exact Hall]. intros point Hp.
    apply Forall2_fmap_r, Forall_Forall2_diag.
    eapply List.Forall_impl; [| exact Hp]. intros v Hv.
    split; [reflexivity | apply remap_unit_interval, Hv].
Qed.

Lemma logistic_map_unit_interval_witness :
  Forall (Forall (fun v => 0 <= v <= 1)) [[0; 0.5; 1]] /\
  exists res, logistic_map [[0; 0.5; 1]] 15 = inr res.
Proof.
  assert (Hall : Forall (Forall (fun v => 0 <= v <= 1)) [[0; 0.5; 1]])
    by (repeat constructor; lra).
  split; [exact Hall |].
  destruct (proj2 (proj2 (proj2 logistic_map_unit_interval)) _ Hall)
    as (res & Hres & _).
  exists res. exact Hres.
Defined.

(** X5.  With [A = 0.0] the two anchors of [logistic_map] coincide,
    [q - p] is 0.0, and the first coordinate met is divided by it:
    [logistic_map(points, 0.0)] raises ZeroDivisionError exactly when some
    point has a coordinate, and returns the (empty) rows otherwise. *)
Theorem logistic_map_zero_sharpness (points : list (list R)) :
  (logistic_map points 0 = inl ZeroDivisionError <->
   Exists (fun vec => vec <> []) points) /\
  (Forall (fun vec => vec = []) points ->
   logistic_map points 0 = inr (map (fun _ => []) points)).
Proof.
  assert (Hfail : Exists (fun vec => vec <> []) points ->
                  logistic_map points 0 = inl ZeroDivisionError).
  { intros Hne.
    assert (He : exists e, logistic_map points 0 = inl e).
    { unfold logistic_map. apply comprehension_fails.
      eapply List.Exists_impl; [| exact Hne]. intros vec Hvec. simpl.
      destruct vec as [| v vec]; [congruence |].
      apply comprehension_fails. left. exists ZeroDivisionError.
      unfold logistic_elem, py_div, logistic_p, logistic_q.
      replace (- 0 / 2) with (0 / 2) by lra.
      rewrite Rminus_diag.
      destruct (Req_dec_T 0 0); [reflexivity | lra]. }
    destruct He as [e He]. rewrite He. f_equal.
    unfold logistic_map in He. apply comprehension_inl_Exists in He.
    apply List.Exists_exists in He as (vec & _ & Hv). simpl in Hv.
    apply comprehension_inl_Exists in Hv.
    apply List.Exists_exists in Hv as (v & _ & Helem).
    unfold logistic_elem, py_div in Helem.
    destruct (Req_dec_T _ 0); [| discriminate].
    injection Helem as <-. reflexivity. }
  assert (Hflat : Forall (fun vec : list R => vec = []) points ->
                  logistic_map points 0 = inr (map (fun _ => []) points)).
  { intros Hall. unfold logistic_map. apply comprehension_total.
    eapply List.Forall_impl; [| exact Hall]. intros vec ->. reflexivity. }
  split; [| exact Hflat]. split; [| exact Hfail].
  intros Hs. unfold logistic_map in Hs.
  apply comprehension_inl_Exists in Hs.
  eapply List.Exists_impl; [| exact Hs]. intros vec Hv ->. discriminate.
Qed.

Lemma logistic_map_zero_sharpness_witness :
  Exists (fun vec : list R => vec <> []) [[0.5]] /\
  logistic_map [[0.5]] 0 = inl ZeroDivisionError.
Proof.
  assert (Hne : Exists (fun vec : list R => vec <> []) [[0.5]])
    by (left; discriminate).
  split; [exact Hne |].
  exact (proj2 (proj1 (logistic_map_zero_sharpness [[0.5]])) Hne).
Defined.

(** ** When a variant raises *)




Lemma palettize_mode_empty md layers nl z :
  palettize_mode md [] layers nl z = inl IndexError.
Proof. destruct md; reflexivity. Qed.

(** X6.  IndexError and the variants, on points of one dimensionality: an
    empty collection raises IndexError (there is no first point to measure);
    layers holding an index outside [-len(points), len(points)) make the
    call fail; and an IndexError has one of these two causes. *)
Theorem palettize_mode_index_error
    (md : mode) (m : nat) (points : list (list R)) (layers : list (list Z))
    (nl : Z) (z : R) :
  Forall (fun point => length point = m) points ->
  (points = [] -> palettize_mode md points layers nl z = inl IndexError) /\
  (~ Forall (Forall (valid_index (length points))) layers ->
   exists e, palettize_mode md points layers nl z = inl e) /\
  (palettize_mode md points layers nl z = inl IndexError ->
   points = [] \/
   ~ Forall (Forall (valid_index (length points))) layers).
Proof.
  intros Hdim. destruct points as [| point0 points].
  { rewrite palettize_mode_empty. split; [reflexivity |].
    split; [eauto | auto]. }
  set (pts := point0 :: points) in *.
  assert (Hne : pts <> []) by discriminate.
  assert (Hrun : palettize_mode md pts layers nl z =
                 bind (walk_layers (loop_env md m pts layers nl z)
                         initial_state layers)
                      (fun st => ret (palette_coords st))).
  { rewrite palettize_mode_unfold, (env_of_well_formed md m) by assumption.
    reflexivity. }
  assert (Hvalid : forall idx,
            visitable (loop_env md m pts layers nl z) idx ->
            valid_index (length pts) idx).
  { intros idx (f & uv & Hf & _). apply py_getitem_inr in Hf as [Hv _].
    simpl in Hv. rewrite length_map in Hv. exact Hv. }
  split; [congruence |].
  destruct (walk_layers (loop_env md m pts layers nl z) initial_state layers)
    as [e | stf] eqn:Hwalk.
  - rewrite Hrun. simpl. split; [eauto |]. intros _. right.
    intros Hall.
    destruct (palettize_mode_returns md m pts layers nl z Hdim Hne Hall)
      as (stf & _ & Hok & _).
    congruence.
  - rewrite Hrun. simpl. split; [| discriminate].
    intros Hnot. exfalso. apply Hnot.
    destruct (walk_layers_inv _ _ _ _ Hwalk) as (_ & _ & _ & _ & Hvis).
    eapply List.Forall_impl; [| exact Hvis]. intros layer Hl.
    eapply List.Forall_impl; [| exact Hl]. exact Hvalid.
Qed.

Lemma palettize_mode_index_error_witness :
  Forall (fun point => length point = 2%nat) [[1; 0]; [0; 1]] /\
  ~ Forall (Forall (valid_index (length [[1; 0]; [0; 1]]))) [[0; 2]%Z] /\
  exists e, palettize [[1; 0]; [0; 1]] [[0; 2]%Z] 0 1 = inl e.
Proof.
  assert (Hdim : Forall (fun point => length point = 2%nat)
                   [[1; 0]; [0; 1]]) by (repeat constructor).
  assert (Hbad : ~ Forall (Forall (valid_index (length [[1; 0]; [0; 1]])))
                     [[0; 2]%Z]).
  { intros H. inversion H as [| ? ? Hl _]; subst.
    inversion Hl as [| ? ? _ Hl']; subst.
    inversion Hl' as [| ? ? Hv _]; subst.
    unfold valid_index in Hv. simpl in Hv. lia. }
  split; [exact Hdim |]. split; [exact Hbad |].
  exact (proj1 (proj2 (palettize_mode_index_error Default 2 _ [[0; 2]%Z] 0 1
                         Hdim)) Hbad).
Defined.

(** ** Indices and keys *)

Lemma py_getitem_wrap {A : Type} (l : list A) (idx : Z) :
  (- Z.of_nat (length l) <= idx < 0)%Z ->
  py_getitem l idx = py_getitem l (idx + Z.of_nat (length l)).
Proof.
  intros Hidx. unfold py_getitem. cbv zeta.
  destruct (Z.ltb_spec idx 0); [| lia].
  destruct (Z.ltb_spec (idx + Z.of_nat (length l)) 0); [lia |].
  reflexivity.
Qed.

(** X7.  A negative index in the layers is taken from the end of the
    collection, as Python does, but the entry is stored under the negative
    key as given: its [(u, v)] is that of point [idx + len(points)], and if
    the non-negative index of the same point is in the layers too, the
    mapping holds two entries with the same [(u, v)] for the one point. *)
Theorem negative_index_alias
    (md : mode) (m : nat) (points : list (list R)) (layers : list (list Z))
    (nl : Z) (z : R) (idx : Z) :
  well_formed m points layers ->
  idx ∈ concat layers ->
  (idx < 0)%Z ->
  exists pc x u v w,
    palettize_mode md points layers nl z = inr pc /\
    nth_error points (Z.to_nat (idx + Z.of_nat (length points))) = Some x /\
    pc !! idx = Some [u; v; w] /\
    (u, v) = uv_of md m (preprocessed md m x) /\
    ((idx + Z.of_nat (length points))%Z ∈ concat layers ->
     exists w', pc !! (idx + Z.of_nat (length points))%Z = Some [u; v; w']).
Proof.
  intros (Hne & Hdim & Hlayers) Hin Hneg.
  destruct (palettize_mode_returns md m points layers nl z
              Hdim Hne Hlayers) as (stf & _ & Hwalk & Hrun).
  destruct (palettize_mode_entry md m points layers nl z Hdim Hne
              Hlayers stf idx Hwalk Hin) as (x & w & Hx & _ & He).
  exists (palette_coords stf), x.
  exists (fst (uv_of md m (preprocessed md m x))),
         (snd (uv_of md m (preprocessed md m x))), w.
  split; [exact Hrun |].
  pose proof Hx as Hx'. apply py_getitem_inr in Hx' as [Hv Hnth].
  unfold position in Hnth. destruct (Z.ltb_spec idx 0); [| lia].
  split; [exact Hnth |]. split; [exact He |].
  split; [destruct (uv_of md m _); reflexivity |].
  intros Hin'.
  destruct (palettize_mode_entry md m points layers nl z Hdim Hne
              Hlayers stf _ Hwalk Hin') as (x' & w' & Hx1 & _ & He').
  rewrite <- py_getitem_wrap in Hx1 by (unfold valid_index in Hv; lia).
  assert (x' = x) by congruence. subst x'.
  exists w'. exact He'.
Qed.

Lemma negative_index_alias_witness :
  well_formed 2 [[1; 0]; [0; 1]] [[-1; 1]%Z] /\
  (-1)%Z ∈ concat [[-1; 1]%Z] /\
  (-1 < 0)%Z /\
  exists pc u v w w',
    palettize [[1; 0]; [0; 1]] [[-1; 1]%Z] 0 1 = inr pc /\
    pc !! (-1)%Z = Some [u; v; w] /\
    pc !! 1%Z = Some [u; v; w'].
Proof.
  assert (Hwf : well_formed 2 [[1; 0]; [0; 1]] [[-1; 1]%Z]).
  { repeat split; [discriminate | repeat constructor |].
    repeat constructor; unfold valid_index; simpl; lia. }
  assert (Hin : (-1)%Z ∈ concat [[-1; 1]%Z])
    by (simpl; apply list_elem_of_In; simpl; auto).
  assert (Hneg : (-1 < 0)%Z) by lia.
  split; [exact Hwf |]. split; [exact Hin |]. split; [exact Hneg |].
  destruct (negative_index_alias Default 2 _ _ 0 1 (-1) Hwf Hin Hneg)
    as (pc & x & u & v & w & Hrun & _ & He & _ & Hboth).
  destruct Hboth as [w' Hw'].
  { simpl. apply list_elem_of_In. simpl. auto. }
  exists pc, u, v, w, w'. auto.
Defined.

(** ** Depth, at the edges of [n_layers] *)

Lemma walk_layers_flat (env : walk_env) :
  use_wl env = false -> points_per_layer env = PosInf ->
  forall layers st st',
    walk_layers env st layers = inr st' ->
    wc st = 0 ->
    (forall k e, palette_coords st !! k = Some e ->
                 exists u v, e = [u; v; 0]) ->
    wc st' = 0 /\
    (forall k e, palette_coords st' !! k = Some e ->
                 exists u v, e = [u; v; 0]).
Proof.
  intros Huse Hinf.
  assert (Hvisit : forall st st' idx,
            visit env st idx = inr st' -> wc st = 0 ->
            (forall k e, palette_coords st !! k = Some e ->
                         exists u v, e = [u; v; 0]) ->
            wc st' = 0 /\
            (forall k e, palette_coords st' !! k = Some e ->
                         exists u v, e = [u; v; 0])).
  { intros st st' idx Hv Hwc Hpc.
    destruct (visit_inr _ _ _ _ Hv)
      as (f & u & v & _ & _ & Hpc' & _ & Hwc' & _).
    rewrite Hinf in Hwc'. simpl in Hwc'. split; [congruence |].
    intros k e. rewrite Hpc', Huse, Hwc.
    destruct (decide (idx = k)) as [<- | Hne].
    - rewrite lookup_insert_eq. intros [= <-]. eauto.
    - rewrite lookup_insert_ne by exact Hne. apply Hpc. }
  assert (Hlayer : forall layer st st',
            walk_layer env st layer = inr st' -> wc st = 0 ->
            (forall k e, palette_coords st !! k = Some e ->
                         exists u v, e = [u; v; 0]) ->
            wc st' = 0 /\
            (forall k e, palette_coords st' !! k = Some e ->
                         exists u v, e = [u; v; 0])).
  { unfold walk_layer. induction layer as [| idx layer IH]; intros st st'.
    - intros [= <-]. auto.
    - simpl. intros H Hwc Hpc. apply bind_inr in H as (st1 & H1 & H).
      destruct (Hvisit _ _ _ H1 Hwc Hpc) as [Hwc1 Hpc1].
      exact (IH _ _ H Hwc1 Hpc1). }
  induction layers as [| layer layers IH]; intros st st'.
  - intros [= <-]. auto.
  - rewrite walk_layers_cons. intros H Hwc Hpc.
    apply bind_inr in H as (st1 & H1 & H).
    destruct (Hlayer _ _ _ H1 Hwc Hpc) as [Hwc1 Hpc1].
    exact (IH _ _ H Hwc1 Hpc1).
Qed.

(** X8.  A negative [n_layers] flattens the stack: the count-indexed track
    is selected, its threshold is [float('inf')], and every point of every
    layer gets the depth 0.0, whatever [zgap] is. *)
Theorem negative_n_layers_flat
    (md : mode) (m : nat) (points : list (list R)) (layers : list (list Z))
    (nl : Z) (z : R) :
  well_formed m points layers ->
  (nl < 0)%Z ->
  exists pc,
    palettize_mode md points layers nl z = inr pc /\
    forall idx, idx ∈ concat layers -> exists u v, pc !! idx = Some [u; v; 0].
Proof.
  intros (Hne & Hdim & Hlayers) Hnl.
  destruct (palettize_mode_returns md m points layers nl z
              Hdim Hne Hlayers) as (stf & _ & Hwalk & Hrun).
  exists (palette_coords stf). split; [exact Hrun |].
  intros idx Hin.
  destruct (walk_layers_flat (loop_env md m points layers nl z))
    with (layers := layers) (st := initial_state) (st' := stf)
    as [_ Hflat].
  - unfold use_wl. simpl. apply orb_false_iff. split.
    + apply Z.eqb_neq. lia.
    + apply Z.leb_gt. lia.
  - simpl. unfold points_per_layer_of.
    destruct (Z.ltb_spec 0 nl); [lia | reflexivity].
  - exact Hwalk.
  - reflexivity.
  - intros k e. simpl. rewrite lookup_empty. discriminate.
  - destruct (palettize_mode_entry md m points layers nl z Hdim Hne
                Hlayers stf idx Hwalk Hin) as (x & w & _ & _ & He).
    destruct (Hflat _ _ He) as (u & v & Heq). rewrite He, Heq. eauto.
Qed.

Lemma negative_n_layers_flat_witness :
  well_formed 2 [[1; 0]; [0; 1]] [[0]; [1]]%Z /\
  (-3 < 0)%Z /\
  exists pc u v,
    palettize [[1; 0]; [0; 1]] [[0]; [1]]%Z (-3) 1 = inr pc /\
    pc !! 1%Z = Some [u; v; 0].
Proof.
  assert (Hwf : well_formed 2 [[1; 0]; [0; 1]] [[0]; [1]]%Z).
  { repeat split; [discriminate | repeat constructor |].
    repeat constructor; unfold valid_index; simpl; lia. }
  assert (Hnl : (-3 < 0)%Z) by lia.
  split; [exact Hwf |]. split; [exact Hnl |].
  destruct (negative_n_layers_flat Default 2 _ _ (-3) 1 Hwf Hnl)
    as (pc & Hrun & Hall).
  destruct (Hall 1%Z) as (u & v & He).
  { simpl. apply list_elem_of_In. simpl. auto. }
  exists pc, u, v. auto.
Defined.

Lemma bucket_size_covers (n_points : nat) (nl : Z) :
  (0 < nl)%Z -> (Z.of_nat n_points <= bucket_size n_points nl * nl)%Z.
Proof.
  intros Hnl. unfold bucket_size.
  pose proof (Z.div_mod (Z.of_nat n_points + nl - 1) nl) as Hdm.
  pose proof (Z.mod_pos_bound (Z.of_nat n_points + nl - 1) nl Hnl).
  nia.
Qed.

(** X9.  On the count-indexed track ([0 < n_layers < len(layers)]) the
    first [len(points)] visits use at most [n_layers] depth levels: each of
    them writes [w = -j * zgap] for a whole [j] with [0 <= j < n_layers].
    So layers that list every point once are compressed into at most
    [n_layers] buckets. *)
Theorem count_track_levels
    (md : mode) (m : nat) (points : list (list R)) (layers : list (list Z))
    (nl : Z) (z : R) :
  well_formed m points layers ->
  (0 < nl)%Z ->
  (nl < Z.of_nat (length layers))%Z ->
  exists env pc,
    env_of md points layers nl z = inr env /\
    palettize_mode md points layers nl z = inr pc /\
    forall pre l1 idx l2 post,
      layers = pre ++ (l1 ++ idx :: l2) :: post ->
      (visits_before pre l1 < Z.of_nat (length points))%Z ->
      exists st u v j,
        walk_upto env pre (l1 ++ [idx]) = inr st /\
        (0 <= j < nl)%Z /\
        palette_coords st !! idx = Some [u; v; - IZR j * z] /\
        (idx ∉ l2 -> idx ∉ concat post ->
         pc !! idx = Some [u; v; - IZR j * z]).
Proof.
  intros (Hne & Hdim & Hlayers) Hnl Hmore.
  destruct (palettize_mode_returns md m points layers nl z
              Hdim Hne Hlayers) as (stf & Henv & Hwalk & Hrun).
  set (env := loop_env md m points layers nl z) in *.
  exists env, (palette_coords stf).
  split; [exact Henv |]. split; [exact Hrun |].
  intros pre l1 idx l2 post Hcut Hfirst.
  destruct (walk_cut env layers stf pre l1 idx l2 post Hwalk Hcut)
    as (st & st' & Hbefore & Hvisit & Hupto & _ & Hlast).
  destruct (visit_entry _ _ _ _ Hvisit) as (u & v & He).
  assert (Huse : use_wl env = false).
  { unfold use_wl. simpl. apply orb_false_iff. split.
    - apply Z.eqb_neq. lia.
    - apply Z.leb_gt. exact Hmore. }
  rewrite Huse in He.
  assert (Hpts : (0 < length points)%nat)
    by (destruct points; [congruence | simpl; lia]).
  unfold walk_upto in Hbefore.
  apply bind_inr in Hbefore as (st0 & H0 & H1).
  pose proof (initial_on_track env (length points) Hpts) as Htrack.
  apply (walk_layers_on_track env (length points) Hnl Hpts eq_refl
           _ _ _ _ H0) in Htrack.
  apply (walk_layer_on_track env (length points) Hnl Hpts eq_refl
           _ _ _ _ H1) in Htrack.
  destruct Htrack as (Hk & _ & Hwc). simpl in Hk, Hwc.
  rewrite Z.add_0_l in Hk, Hwc.
  unfold visits_before in Hfirst. rewrite Nat2Z.inj_add in Hfirst.
  set (k := (Z.of_nat (length (concat pre)) + Z.of_nat (length l1))%Z) in *.
  pose proof (bucket_size_pos (length points) nl Hnl Hpts) as Hc.
  pose proof (bucket_size_covers (length points) nl Hnl) as Hcover.
  exists st', u, v, (k / bucket_size (length points) nl)%Z.
  split; [exact Hupto |]. split.
  { split; [apply Z.div_pos; lia |].
    apply Z.div_lt_upper_bound; [exact Hc | lia]. }
  rewrite Hwc in He. split; [exact He |].
  intros Hl2 Hpost. rewrite (Hlast Hl2 Hpost). exact He.
Qed.

Lemma count_track_levels_witness :
  well_formed 2 [[1; 0]; [0; 1]; [1; 1]] [[0]; [1]; [2]]%Z /\
  (0 < 2)%Z /\
  (2 < Z.of_nat (length [[0]; [1]; [2]]%Z))%Z /\
  exists pc u v j,
    palettize [[1; 0]; [0; 1]; [1; 1]] [[0]; [1]; [2]]%Z 2 1 = inr pc /\
    (0 <= j < 2)%Z /\
    pc !! 2%Z = Some [u; v; - IZR j * 1].
Proof.
  assert (Hwf : well_formed 2 [[1; 0]; [0; 1]; [1; 1]] [[0]; [1]; [2]]%Z).
  { repeat split; [discriminate | repeat constructor |].
    repeat constructor; unfold valid_index; simpl; lia. }
  assert (Hnl : (0 < 2)%Z) by lia.
  assert (Hmore : (2 < Z.of_nat (length [[0]; [1]; [2]]%Z))%Z)
    by (simpl; lia).
  split; [exact Hwf |]. split; [exact Hnl |]. split; [exact Hmore |].
  destruct (count_track_levels Default 2 _ _ 2 1 Hwf Hnl Hmore)
    as (env & pc & _ & Hrun & Hcut).
  destruct (Hcut [[0]; [1]]%Z [] 2%Z [] [] eq_refl)
    as (st & u & v & j & _ & Hj & _ & Hlast).
  { unfold visits_before. simpl. lia. }
  exists pc, u, v, j. split; [exact Hrun |]. split; [exact Hj |].
  apply Hlast.
  - intros Hin. apply list_elem_of_In in Hin. exact Hin.
  - simpl. intros Hin. apply list_elem_of_In in Hin. exact Hin.
Defined.

(** ** Points of unequal lengths *)

Lemma env_of_point0 md points (point0 : list R) layers nl z :
  py_getitem points 0 = inr point0 ->
  env_of md points layers nl z =
  inr (loop_env md (length point0) points layers nl z).
Proof.
  intros H0. set (m := length point0). unfold loop_env.
  destruct md; simpl.
  - unfold palettize_env. rewrite H0. simpl. fold m.
    assert (Hs : scale points (if (3 <? m)%nat then 2 else 1) =
                 inr (map (map (fun c => PyFloat (c ^ default_power m)))
                          points)).
    { unfold default_power. destruct (3 <? m)%nat.
      - replace 2 with (INR 2) by (simpl; lra). apply scale_nat. lia.
      - change 1 with (INR 1). apply scale_nat. lia. }
    rewrite Hs. simpl. unfold ret. do 2 f_equal.
    + apply map_ext. intros x. rewrite map_map. reflexivity.
    + rewrite length_map. reflexivity.
  - unfold palettize_polar_env. rewrite H0. simpl. fold m.
    assert (Hs : scale (reverse_normalize points)
                       (if (3 <? m)%nat then 3 else 2) =
                 inr (map (map (fun c => PyFloat (c ^ polar_power m)))
                          (reverse_normalize points))).
    { unfold polar_power. destruct (3 <? m)%nat.
      - replace 3 with (INR 3) by (simpl; lra). apply scale_nat. lia.
      - replace 2 with (INR 2) by (simpl; lra). apply scale_nat. lia. }
    rewrite Hs. simpl. unfold ret, reverse_normalize. do 2 f_equal.
    + rewrite map_map. apply map_ext. intros x. rewrite !map_map.
      reflexivity.
    + rewrite !length_map. reflexivity.
  - unfold palettize_logistic_env. rewrite logistic_map_15. simpl.
    rewrite (py_getitem_map (map remap) points 0 point0 H0). simpl.
    rewrite length_map. fold m. unfold ret. do 2 f_equal.
    + rewrite map_map. reflexivity.
    + rewrite length_map. reflexivity.
Qed.

Lemma loop_env_uv_longer md m points layers nl z (x : list R) :
  (m <= length x)%nat ->
  uv_rule (loop_env md m points layers nl z)
    (axis_set (loop_env md m points layers nl z))
    (map PyFloat (preprocessed md m x)) =
  inr (uv_of md m (preprocessed md m x)).
Proof.
  intros Hlen.
  assert (Hm : (m <= length (preprocessed md m x))%nat)
    by (rewrite length_preprocessed; exact Hlen).
  destruct md; simpl;
    [apply uv_normalized_axes | apply uv_polar_axes | apply uv_normalized_axes];
    exact Hm.
Qed.

Lemma sum_R_app (l1 l2 : list R) : sum_R (l1 ++ l2) = sum_R l1 + sum_R l2.
Proof. induction l1 as [| a l1 IH]; simpl; [ring | rewrite IH; ring]. Qed.

Lemma radial_firstn (trig : R -> R) (m : nat) (f : list R) :
  radial trig m f = radial trig m (firstn m f).
Proof.
  unfold radial. apply sum_R_ext. intros i Hi. apply in_seq in Hi.
  rewrite nth_firstn. destruct (Nat.ltb_spec i m); [reflexivity | lia].
Qed.

(** X10.  The variants do not check that the points have one length: [m]
    is the length of the first point, and a point longer than that is
    accepted.  Its coordinates beyond the first [m] never enter the weighted
    sums; in the normalized and logistic variants they do enter the sum the
    result is divided by. *)
Theorem longer_points_accepted
    (md : mode) (point0 : list R) (rest : list (list R))
    (layers : list (list Z)) (nl : Z) (z : R) :
  let points := point0 :: rest in
  let m := length point0 in
  Forall (fun point => (m <= length point)%nat) points ->
  Forall (Forall (valid_index (length points))) layers ->
  exists pc,
    palettize_mode md points layers nl z = inr pc /\
    forall idx, idx ∈ concat layers ->
      exists x w,
        py_getitem points idx = inr x /\
        let f := preprocessed md m x in
        pc !! idx = Some [fst (uv_of md m f); snd (uv_of md m f); w] /\
        radial cos m f = radial cos m (firstn m f) /\
        radial sin m f = radial sin m (firstn m f) /\
        sum_R f = sum_R (firstn m f) + sum_R (skipn m f).
Proof.
  intros points m Hlong Hlayers.
  set (env := loop_env md m points layers nl z).
  assert (Hget : forall idx x, py_getitem points idx = inr x ->
            py_getitem (points_ env) idx =
              inr (map PyFloat (preprocessed md m x)) /\
            (m <= length x)%nat).
  { intros idx x Hx. split.
    - apply (py_getitem_map (fun x => map PyFloat (preprocessed md m x))).
      exact Hx.
    - apply py_getitem_inr in Hx as [_ Hnth]. apply nth_error_In in Hnth.
      rewrite List.Forall_forall in Hlong. apply Hlong, Hnth. }
  assert (Hvis : Forall (Forall (visitable env)) layers).
  { eapply List.Forall_impl; [| exact Hlayers]. intros layer Hl.
    eapply List.Forall_impl; [| exact Hl]. intros idx Hv.
    destruct (py_getitem_valid points idx Hv) as [x Hx].
    destruct (Hget idx x Hx) as [Hf Hlen].
    exists (map PyFloat (preprocessed md m x)),
           (uv_of md m (preprocessed md m x)).
    split; [exact Hf | apply loop_env_uv_longer, Hlen]. }
  destruct (walk_layers_total env initial_state layers Hvis) as [stf Hwalk].
  exists (palette_coords stf). split.
  { rewrite palettize_mode_unfold.
    rewrite (env_of_point0 md points point0) by reflexivity.
    fold m env. simpl. rewrite Hwalk. reflexivity. }
  intros idx Hin.
  destruct (walk_layers_inv env _ _ _ Hwalk) as (_ & Hdom & _ & Hproj & _).
  assert (Hsome : is_Some (palette_coords stf !! idx)).
  { apply elem_of_dom. rewrite Hdom. set_solver. }
  destruct Hsome as [e He].
  assert (Hp0 : projected env (palette_coords initial_state)).
  { intros i e'. simpl. rewrite lookup_empty. discriminate. }
  destruct (Hproj Hp0 idx e He) as (f & u & v & w & Hf & Huv & ->).
  destruct (loop_env_getitem_inv md m points layers nl z idx f Hf)
    as (x & Hx & ->).
  destruct (Hget idx x Hx) as [_ Hlen].
  unfold env in Huv. rewrite (loop_env_uv_longer _ _ _ _ _ _ x Hlen) in Huv.
  injection Huv as Huv.
  exists x, w. split; [exact Hx |]. cbv zeta. rewrite Huv. simpl.
  split; [exact He |].
  split; [apply radial_firstn |]. split; [apply radial_firstn |].
  rewrite <- sum_R_app, firstn_skipn. reflexivity.
Qed.

Lemma longer_points_accepted_witness :
  Forall (fun point => (length [1; 0] <= length point)%nat)
         ([1; 0] :: [[0; 1; 5]]) /\
  Forall (Forall (valid_index (length ([1; 0] :: [[0; 1; 5]])))) [[1]%Z] /\
  exists pc u v w,
    palettize [[1; 0]; [0; 1; 5]] [[1]%Z] 0 1 = inr pc /\
    pc !! 1%Z = Some [u; v; w].
Proof.
  assert (Hlong : Forall (fun point => (length [1; 0] <= length point)%nat)
                    ([1; 0] :: [[0; 1; 5]]))
    by (repeat constructor; simpl; lia).
  assert (Hlayers : Forall (Forall (valid_index
                      (length ([1; 0] :: [[0; 1; 5]])))) [[1]%Z])
    by (repeat constructor; unfold valid_index; simpl; lia).
  split; [exact Hlong |]. split; [exact Hlayers |].
  destruct (longer_points_accepted Default [1; 0] [[0; 1; 5]] [[1]%Z] 0 1
              Hlong Hlayers) as (pc & Hrun & Hent).
  destruct (Hent 1%Z) as (x & w & _ & He & _).
  { simpl. apply list_elem_of_In. simpl. auto. }
  exists pc. do 2 eexists. exists w. split; [exact Hrun | exact He].
Defined.









(** ** The projection stays in the unit disc *)

Lemma weighted_square_step (w a P S Q : R) :
  0 <= w -> 0 <= S -> 0 <= Q -> P * P <= S * Q ->
  (w * a + P) * (w * a + P) <= (w + S) * (w * (a * a) + Q).
Proof.
  intros Hw HS HQ HP.
  assert (H : 2 * a * P <= Q + S * (a * a)).
  { destruct (Req_dec S 0) as [-> | HS0].
    - assert (P = 0) by nra. subst. nra.
    - assert (0 < S) by lra.
      pose proof (Rle_0_sqr (S * a - P)) as Hsq. unfold Rsqr in Hsq.
      assert (0 <= S * (Q + S * (a * a) - 2 * a * P)) by nra.
      nra. }
  nra.
Qed.

(** For non-negative weights, the square of a weighted sum is at most the
    sum of the weights times the weighted sum of the squares. *)
Lemma weighted_square_bound (w a : nat -> R) (l : list nat) :
  (forall i, In i l -> 0 <= w i) ->
  0 <= sum_R (map w l) /\
  0 <= sum_R (map (fun i => w i * (a i * a i)) l) /\
  sum_R (map (fun i => w i * a i) l) * sum_R (map (fun i => w i * a i) l)
  <= sum_R (map w l) * sum_R (map (fun i => w i * (a i * a i)) l).
Proof.
  induction l as [| i l IH]; intros Hw; simpl.
  - repeat split; lra.
  - destruct IH as (HS & HQ & HP); [intros j Hj; apply Hw; right; exact Hj |].
    assert (Hwi : 0 <= w i) by (apply Hw; left; reflexivity).
    pose proof (Rle_0_sqr (a i)) as Hsq. unfold Rsqr in Hsq.
    repeat split; [lra | nra |].
    apply weighted_square_step; assumption.
Qed.

Lemma sum_R_plus {A : Type} (g h : A -> R) (l : list A) :
  sum_R (map g l) + sum_R (map h l) = sum_R (map (fun x => g x + h x) l).
Proof. induction l as [| x l IH]; simpl; [ring | rewrite <- IH; ring]. Qed.

Lemma map_nth_seq (l : list R) :
  map (fun i => nth i l 0) (seq 0 (length l)) = l.
Proof.
  induction l as [| a l IH]; simpl; [reflexivity |]. f_equal.
  rewrite <- seq_shift, map_map. exact IH.
Qed.

Lemma nth_nonneg (f : list R) (i : nat) :
  Forall (fun c => 0 <= c) f -> 0 <= nth i f 0.
Proof.
  intros Hall. destruct (Nat.lt_ge_cases i (length f)) as [Hlt | Hge].
  - rewrite List.Forall_forall in Hall. apply Hall, nth_In, Hlt.
  - rewrite nth_overflow by exact Hge. lra.
Qed.

Lemma radial_disc (m : nat) (f : list R) :
  length f = m -> Forall (fun c => 0 <= c) f ->
  radial cos m f * radial cos m f + radial sin m f * radial sin m f
  <= sum_R f * sum_R f /\ 0 <= sum_R f.
Proof.
  intros Hlen Hnn.
  set (w := fun i => nth i f 0).
  set (theta := fun i => 2 * PI * INR i / INR m).
  assert (Hw : forall i, In i (seq 0 m) -> 0 <= w i)
    by (intros i _; apply nth_nonneg, Hnn).
  destruct (weighted_square_bound w (fun i => cos (theta i)) (seq 0 m) Hw)
    as (HS & _ & Hc).
  destruct (weighted_square_bound w (fun i => sin (theta i)) (seq 0 m) Hw)
    as (_ & _ & Hs).
  assert (Hsum : sum_R (map w (seq 0 m)) = sum_R f).
  { unfold w. rewrite <- Hlen, map_nth_seq. reflexivity. }
  assert (Hone : sum_R (map (fun i => w i * (cos (theta i) * cos (theta i)))
                            (seq 0 m))
                 + sum_R (map (fun i => w i * (sin (theta i) * sin (theta i)))
                              (seq 0 m))
                 = sum_R f).
  { rewrite sum_R_plus, <- Hsum. apply sum_R_ext. intros i _.
    pose proof (sin2_cos2 (theta i)) as H1. unfold Rsqr in H1.
    rewrite <- Rmult_plus_distr_l, (Rplus_comm (cos _ * _)), H1. ring. }
  rewrite Hsum in *. split; [| exact HS].
  change (radial cos m f)
    with (sum_R (map (fun i => w i * cos (theta i)) (seq 0 m))).
  change (radial sin m f)
    with (sum_R (map (fun i => w i * sin (theta i)) (seq 0 m))).
  cbv beta in Hc, Hs.
  set (C := sum_R (map (fun i => w i * cos (theta i)) (seq 0 m))) in *.
  set (S := sum_R (map (fun i => w i * sin (theta i)) (seq 0 m))) in *.
  set (Qc := sum_R (map (fun i => w i * (cos (theta i) * cos (theta i)))
                        (seq 0 m))) in *.
  set (Qs := sum_R (map (fun i => w i * (sin (theta i) * sin (theta i)))
                        (seq 0 m))) in *.
  replace (sum_R f * sum_R f) with (sum_R f * Qc + sum_R f * Qs)
    by (rewrite <- Hone; ring).
  lra.
Qed.

Lemma uv_normalized_disc (md : mode) (m : nat) (f : list R) :
  md = Default \/ md = Logistic ->
  length f = m -> Forall (fun c => 0 <= c) f ->
  fst (uv_of md m f) * fst (uv_of md m f)
  + snd (uv_of md m f) * snd (uv_of md m f) <= 1.
Proof.
  intros Hmd Hlen Hnn. destruct (radial_disc m f Hlen Hnn) as [Hdisc _].
  assert (Hgoal :
    fst (if Rlt_dec 0 (sum_R f)
         then (radial cos m f / sum_R f, radial sin m f / sum_R f)
         else (0, 0))
    * fst (if Rlt_dec 0 (sum_R f)
           then (radial cos m f / sum_R f, radial sin m f / sum_R f)
           else (0, 0))
    + snd (if Rlt_dec 0 (sum_R f)
           then (radial cos m f / sum_R f, radial sin m f / sum_R f)
           else (0, 0))
      * snd (if Rlt_dec 0 (sum_R f)
             then (radial cos m f / sum_R f, radial sin m f / sum_R f)
             else (0, 0)) <= 1).
  { destruct (Rlt_dec 0 (sum_R f)) as [Hpos | _]; simpl; [| lra].
    set (s := sum_R f) in *. set (C := radial cos m f) in *.
    set (S := radial sin m f) in *.
    replace (C / s * (C / s) + S / s * (S / s))
      with ((C * C + S * S) / (s * s)) by (field; lra).
    apply (Rmult_le_reg_r (s * s)); [nra |].
    unfold Rdiv. rewrite Rmult_assoc, Rinv_l by nra. lra. }
  destruct Hmd as [-> | ->]; exact Hgoal.
Qed.

Lemma preprocessed_nonneg (md : mode) (m : nat) (x : list R) :
  md = Default \/ md = Logistic ->
  Forall (fun c => 0 <= c) x ->
  Forall (fun c => 0 <= c) (preprocessed md m x).
Proof.
  intros Hmd Hnn. destruct Hmd as [-> | ->]; simpl; apply Forall_map;
    (eapply List.Forall_impl; [| exact Hnn]); intros c Hc; simpl.
  - apply pow_le, Hc.
  - destruct Hc as [Hc | <-]; [| rewrite remap_0; lra].
    rewrite <- remap_0. left. apply remap_increasing, Hc.
Qed.

(** X12.  In the normalized and logistic variants, a collection of points
    with non-negative coordinates is projected into the closed unit disc:
    every entry has [u^2 + v^2 <= 1] (in exact arithmetic), the entries of
    the points with sum 0 being the centre. *)
Theorem normalized_in_unit_disc
    (md : mode) (m : nat) (points : list (list R)) (layers : list (list Z))
    (nl : Z) (z : R) :
  md = Default \/ md = Logistic ->
  well_formed m points layers ->
  Forall (Forall (fun c => 0 <= c)) points ->
  exists pc,
    palettize_mode md points layers nl z = inr pc /\
    forall idx, idx ∈ concat layers ->
      exists u v w, pc !! idx = Some [u; v; w] /\ u * u + v * v <= 1.
Proof.
  intros Hmd (Hne & Hdim & Hlayers) Hnn.
  destruct (palettize_mode_returns md m points layers nl z
              Hdim Hne Hlayers) as (stf & _ & Hwalk & Hrun).
  exists (palette_coords stf). split; [exact Hrun |].
  intros idx Hin.
  destruct (palettize_mode_entry md m points layers nl z Hdim Hne
              Hlayers stf idx Hwalk Hin) as (x & w & Hx & Hlen & He).
  do 2 eexists. exists w. split; [exact He |].
  apply uv_normalized_disc; [exact Hmd | |].
  - rewrite length_preprocessed. exact Hlen.
  - apply preprocessed_nonneg; [exact Hmd |].
    apply py_getitem_inr in Hx as [_ Hnth]. apply nth_error_In in Hnth.
    rewrite List.Forall_forall in Hnn. apply Hnn, Hnth.
Qed.

Lemma normalized_in_unit_disc_witness :
  well_formed 3 [[1; 2; 3]; [0; 0; 0]] [[0; 1]%Z] /\
  Forall (Forall (fun c => 0 <= c)) [[1; 2; 3]; [0; 0; 0]] /\
  exists pc u v w,
    palettize [[1; 2; 3]; [0; 0; 0]] [[0; 1]%Z] 0 1 = inr pc /\
    pc !! 0%Z = Some [u; v; w] /\ u * u + v * v <= 1.
Proof.
  assert (Hwf : well_formed 3 [[1; 2; 3]; [0; 0; 0]] [[0; 1]%Z]).
  { repeat split; [discriminate | repeat constructor |].
    repeat constructor; unfold valid_index; simpl; lia. }
  assert (Hnn : Forall (Forall (fun c => 0 <= c)) [[1; 2; 3]; [0; 0; 0]])
    by (repeat constructor; lra).
  split; [exact Hwf |]. split; [exact Hnn |].
  destruct (normalized_in_unit_disc Default 3 _ _ 0 1
              (or_introl eq_refl) Hwf Hnn) as (pc & Hrun & Hall).
  destruct (Hall 0%Z) as (u & v & w & He & Hdisc).
  { simpl. apply list_elem_of_In. simpl. auto. }
  exists pc, u, v, w. auto.
Defined.

(** ** What [save_palette] writes *)

Lemma sorted_keys_spec (pc : gmap Z (list R)) :
  Sorted Z.le (sorted_keys pc) /\
  NoDup (sorted_keys pc) /\
  (forall i, i ∈ sorted_keys pc <-> i ∈ dom pc).
Proof.
  unfold sorted_keys.
  pose proof (merge_sort_Permutation Z.le (elements (dom pc))) as Hperm.
  split; [apply (Sorted_merge_sort Z.le) |]. split.
  - rewrite Hperm. apply NoDup_elements.
  - intros i. rewrite Hperm. apply elem_of_elements.
Qed.

Lemma Sorted_range (a n : nat) : Sorted Z.le (map Z.of_nat (seq a n)).
Proof.
  revert a. induction n as [| n IH]; intros a; simpl; constructor.
  - apply IH.
  - destruct n; simpl; constructor. lia.
Qed.

Lemma NoDup_range (n : nat) : NoDup (map Z.of_nat (seq 0 n)).
Proof.
  apply NoDup_fmap_2; [intros x y; apply Nat2Z.inj |].
  apply NoDup_ListNoDup, seq_NoDup.
Qed.

Lemma elem_of_range (n : nat) (i : Z) :
  i ∈ map Z.of_nat (seq 0 n) <-> (0 <= i < Z.of_nat n)%Z.
Proof.
  rewrite list_elem_of_In, in_map_iff. split.
  - intros (k & <- & Hk). apply in_seq in Hk. lia.
  - intros Hi. exists (Z.to_nat i). split; [lia |]. apply in_seq. lia.
Qed.

Lemma sorted_keys_range (pc : gmap Z (list R)) (n : nat) :
  (forall i, i ∈ dom pc <-> (0 <= i < Z.of_nat n)%Z) ->
  sorted_keys pc = map Z.of_nat (seq 0 n).
Proof.
  intros Hdom. destruct (sorted_keys_spec pc) as (Hsorted & Hnodup & Hkeys).
  apply (Sorted_unique Z.le); [exact Hsorted | apply Sorted_range |].
  apply NoDup_Permutation; [exact Hnodup | apply NoDup_range |].
  intros i. rewrite Hkeys, Hdom, elem_of_range. reflexivity.
Qed.

(** X13.  [save_palette] writes one line per key, in ascending key order.
    So when the layers of a well-formed call list exactly the indices
    [0 .. len(points)-1], the file has [len(points)] lines and line [k]
    (0-based) is the entry of point [k]: the rows of the output line up with
    the rows of the input, whatever the order of the layers. *)
Theorem save_palette_rows_align
    (format_4f : R -> String.string) (md : mode) (m : nat)
    (points : list (list R)) (layers : list (list Z)) (nl : Z) (z : R) :
  well_formed m points layers ->
  (forall i, i ∈ concat layers <-> (0 <= i < Z.of_nat (length points))%Z) ->
  exists pc,
    palettize_mode md points layers nl z = inr pc /\
    length (save_palette format_4f pc) = length points /\
    forall k, (k < length points)%nat ->
      exists e,
        pc !! Z.of_nat k = Some e /\
        nth_error (save_palette format_4f pc) k
          = Some (palette_line format_4f e).
Proof.
  intros (Hne & Hdim & Hlayers) Hcover.
  destruct (palettize_mode_returns md m points layers nl z
              Hdim Hne Hlayers) as (stf & _ & Hwalk & Hrun).
  set (pc := palette_coords stf) in *.
  assert (Hdom : forall i, i ∈ dom pc <->
                           (0 <= i < Z.of_nat (length points))%Z).
  { intros i. destruct (walk_layers_inv _ _ _ _ Hwalk) as (_ & Hd & _).
    fold pc in Hd. rewrite Hd, <- Hcover. simpl. rewrite dom_empty_L.
    set_solver. }
  exists pc. split; [exact Hrun |].
  unfold save_palette. rewrite (sorted_keys_range pc (length points) Hdom).
  split; [rewrite !length_map, length_seq; reflexivity |].
  intros k Hk.
  assert (Hsome : is_Some (pc !! Z.of_nat k)).
  { apply elem_of_dom, Hdom. lia. }
  destruct Hsome as [e He]. exists e. split; [exact He |].
  rewrite !nth_error_map, (nth_error_nth' (seq 0 (length points)) 0%nat)
    by (rewrite length_seq; exact Hk).
  rewrite seq_nth by exact Hk. simpl. rewrite He. reflexivity.
Qed.

Lemma save_palette_rows_align_witness :
  well_formed 2 [[1; 0]; [0; 1]] [[1]; [0]]%Z /\
  (forall i, i ∈ concat [[1]; [0]]%Z <->
             (0 <= i < Z.of_nat (length [[1; 0]; [0; 1]]))%Z) /\
  exists pc,
    palettize [[1; 0]; [0; 1]] [[1]; [0]]%Z 0 1 = inr pc /\
    length (save_palette (fun _ => String.EmptyString) pc) = 2%nat.
Proof.
  assert (Hwf : well_formed 2 [[1; 0]; [0; 1]] [[1]; [0]]%Z).
  { repeat split; [discriminate | repeat constructor |].
    repeat constructor; unfold valid_index; simpl; lia. }
  assert (Hcover : forall i, i ∈ concat [[1]; [0]]%Z <->
                     (0 <= i < Z.of_nat (length [[1; 0]; [0; 1]]))%Z).
  { intros i. rewrite list_elem_of_In. simpl. lia. }
  split; [exact Hwf |]. split; [exact Hcover |].
  destruct (save_palette_rows_align (fun _ => String.EmptyString) Default 2
              _ _ 0 1 Hwf Hcover) as (pc & Hrun & Hlen & _).
  exists pc. split; [exact Hrun | exact Hlen].
Defined.

(** ** [swap_columns] on the store *)

Lemma h_swap_columns_unfold points c0 c1 :
  h_swap_columns points c0 c1 =
  (let! points_ := h_copy points in
   let! rows := read_list points_ in
   let! _ := h_for_each (h_swap_row c0 c1) tt rows in
   h_ret points_).
Proof. reflexivity. Qed.

Lemma nth_error_position {A : Type} (y : list A) (c : Z) :
  valid_index (length y) c ->
  exists a, nth_error y (position (length y) c) = Some a /\
            py_getitem y c = inr a /\
            (position (length y) c < length y)%nat.
Proof.
  intros Hv. destruct (py_getitem_valid y c Hv) as [a Ha].
  exists a. pose proof Ha as Ha'. apply py_getitem_inr in Ha' as [_ Hnth].
  split; [exact Hnth |]. split; [exact Ha |].
  apply nth_error_Some. congruence.
Qed.

Lemma bounds_check (n : nat) (c : Z) :
  valid_index n c ->
  ((- Z.of_nat n <=? c)%Z && (c <? Z.of_nat n)%Z)%bool = true.
Proof.
  unfold valid_index. intros [H1 H2]. apply andb_true_iff. split.
  - apply Z.leb_le, H1.
  - apply Z.ltb_lt, H2.
Qed.

(** One row: the two item assignments land in the object the caller
    holds. *)
Lemma h_swap_row_run h r (y : list pynum) c0 c1 :
  row_of h r y ->
  valid_index (length y) c0 -> valid_index (length y) c1 ->
  h_swap_row c0 c1 tt (VRef r) h =
  (<[r := OList (map VNum (swap_items c0 c1 y))]> h, inr tt).
Proof.
  intros Hr Hv0 Hv1. unfold row_of in Hr.
  assert (Hlen : length (map VNum y) = length y) by apply length_map.
  destruct (nth_error_position (map VNum y) c0) as (a0 & Hn0 & Hg0 & Hp0);
    [rewrite Hlen; exact Hv0 |].
  destruct (nth_error_position (map VNum y) c1) as (a1 & Hn1 & Hg1 & Hp1);
    [rewrite Hlen; exact Hv1 |].
  unfold h_swap_row, h_bind, lift, read_list, list_setitem. simpl.
  rewrite Hr, Hg0, Hg1. simpl. rewrite Hr.
  rewrite bounds_check by (rewrite Hlen; exact Hv0).
  rewrite lookup_insert_eq, length_insert.
  rewrite bounds_check by (rewrite Hlen; exact Hv1).
  rewrite insert_insert_eq. do 3 f_equal.
  unfold swap_items. rewrite Hlen in *.
  rewrite !nth_error_map in Hn0, Hn1.
  destruct (nth_error y (position (length y) c0)) as [b0 |]; [| discriminate].
  destruct (nth_error y (position (length y) c1)) as [b1 |]; [| discriminate].
  injection Hn0 as <-. injection Hn1 as <-.
  rewrite !list_fmap_insert. reflexivity.
Qed.

Lemma rows_insert_other h rs (ys : list (list pynum)) l o :
  Forall2 (row_of h) rs ys -> l ∉ rs -> Forall2 (row_of (<[l := o]> h)) rs ys.
Proof.
  induction 1 as [| r y rs ys Hr _ IH]; intros Hl; constructor.
  - unfold row_of. rewrite lookup_insert_ne; [exact Hr |].
    intros ->. apply Hl. left.
  - apply IH. intros Hin. apply Hl. right. exact Hin.
Qed.

(** The loop of [swap_columns] over rows that are distinct objects. *)
Lemma h_swap_loop c0 c1 rs (ys : list (list pynum)) :
  forall h,
    Forall2 (row_of h) rs ys ->
    NoDup rs ->
    Forall (fun y => valid_index (length y) c0 /\ valid_index (length y) c1)
           ys ->
    exists h',
      h_for_each (h_swap_row c0 c1) tt (map VRef rs) h = (h', inr tt) /\
      Forall2 (row_of h') rs (map (swap_items c0 c1) ys) /\
      (forall l o, l ∉ rs -> h !! l = Some o -> h' !! l = Some o).
Proof.
  revert ys.
  induction rs as [| r rs IH]; intros ys h Hrows Hnd Hvalid.
  - inversion Hrows; subst. exists h. simpl.
    split; [reflexivity |]. split; [constructor | auto].
  - inversion Hrows as [| ? y ? ys' Hr Hrows']; subst.
    inversion Hnd as [| ? ? Hnotin Hnd']; subst.
    inversion Hvalid as [| ? ? [Hv0 Hv1] Hvalid']; subst.
    set (h1 := <[r := OList (map VNum (swap_items c0 c1 y))]> h).
    destruct (IH ys' h1) as (h' & Hrun & Hrows'' & Hframe).
    + apply rows_insert_other; assumption.
    + exact Hnd'.
    + exact Hvalid'.
    + exists h'. simpl map. simpl h_for_each. unfold h_bind at 1.
      rewrite (h_swap_row_run h r y c0 c1 Hr Hv0 Hv1). fold h1.
      split; [exact Hrun |]. split.
      * constructor; [| exact Hrows''].
        unfold row_of. apply Hframe; [exact Hnotin |].
        unfold h1. apply lookup_insert_eq.
      * intros l o Hl Ho. apply Hframe.
        -- intros Hin. apply Hl. right. exact Hin.
        -- unfold h1. rewrite lookup_insert_ne; [exact Ho |].
           intros ->. apply Hl. left.
Qed.

Lemma h_swap_columns_run
    (h : gmap loc object) (points : loc) (rs : list loc)
    (ys : list (list pynum)) (c0 c1 : Z) :
  h !! points = Some (OList (map VRef rs)) ->
  Forall2 (row_of h) rs ys ->
  NoDup rs ->
  Forall (fun y => valid_index (length y) c0 /\ valid_index (length y) c1)
         ys ->
  exists h' l,
    h_swap_columns points c0 c1 h = (h', inr l) /\
    (l ∉ dom h) /\
    h' !! l = Some (OList (map VRef rs)) /\
    h' !! points = Some (OList (map VRef rs)) /\
    Forall2 (row_of h') rs (map (swap_items c0 c1) ys) /\
    (forall l' o, l' <> l -> l' ∉ rs -> h !! l' = Some o -> h' !! l' = Some o).
Proof.
  intros Hp Hrows Hnd Hvalid.
  set (l := fresh (dom h)).
  assert (Hl : l ∉ dom h) by apply is_fresh.
  assert (Hlrs : l ∉ rs).
  { intros Hin. apply Hl.
    apply list_elem_of_lookup in Hin as [i Hi].
    destruct (Forall2_lookup_l _ _ _ _ _ Hrows Hi) as (y & _ & Hy).
    apply elem_of_dom. eexists. exact Hy. }
  set (h1 := <[l := OList (map VRef rs)]> h).
  destruct (h_swap_loop c0 c1 rs ys h1) as (h' & Hrun & Hrows' & Hframe).
  - apply rows_insert_other; assumption.
  - exact Hnd.
  - exact Hvalid.
  - exists h', l. rewrite h_swap_columns_unfold.
    assert (Hcopy : h_copy points h = (h1, inr l)).
    { unfold h_copy, h_bind, read_list, alloc. rewrite Hp. reflexivity. }
    assert (Hread : read_list l h1 = (h1, inr (map VRef rs))).
    { unfold read_list, h1. rewrite lookup_insert_eq. reflexivity. }
    assert (Hpl : points <> l).
    { intros ->. apply Hl. apply elem_of_dom. eauto. }
    split.
    { unfold h_bind at 1. rewrite Hcopy.
      unfold h_bind at 1. rewrite Hread.
      unfold h_bind at 1. rewrite Hrun. reflexivity. }
    split; [exact Hl |]. split.
    { destruct (decide (l ∈ rs)) as [Hin | Hnin]; [contradiction |].
      apply Hframe; [exact Hnin |]. unfold h1. apply lookup_insert_eq. }
    split.
    { destruct (decide (points ∈ rs)) as [Hin | Hnin].
      - exfalso. apply list_elem_of_lookup in Hin as [i Hi].
        destruct (Forall2_lookup_l _ _ _ _ _ Hrows Hi) as (y & Hyi & Hy).
        unfold row_of in Hy. rewrite Hp in Hy. injection Hy as Hy.
        destruct rs as [| r0 rs']; [rewrite lookup_nil in Hi; discriminate |].
        destruct y; discriminate.
      - apply Hframe; [exact Hnin |]. unfold h1.
        rewrite lookup_insert_ne; [exact Hp | congruence]. }
    split; [exact Hrows' |].
    intros l' o Hne Hnin Ho. apply Hframe; [exact Hnin |].
    unfold h1. rewrite lookup_insert_ne; [exact Ho | congruence].
Qed.

(** X14.  [swap_columns] copies only the outer list: it returns a new list
    that holds the caller's own row objects, and the caller's rows have
    their items [c0] and [c1] exchanged in place.  (Rows that are distinct
    objects, both columns within each row; nothing else in the store
    changes.) *)
Theorem swap_columns_in_place
    (h : gmap loc object) (points : loc) (rs : list loc)
    (ys : list (list pynum)) (c0 c1 : Z) :
  h !! points = Some (OList (map VRef rs)) ->
  Forall2 (row_of h) rs ys ->
  NoDup rs ->
  Forall (fun y => valid_index (length y) c0 /\ valid_index (length y) c1)
         ys ->
  exists h' l,
    h_swap_columns points c0 c1 h = (h', inr l) /\
    (l ∉ dom h) /\
    h' !! l = Some (OList (map VRef rs)) /\
    h' !! points = Some (OList (map VRef rs)) /\
    Forall2 (row_of h') rs (map (swap_items c0 c1) ys) /\
    (forall l' o, l' <> l -> l' ∉ rs -> h !! l' = Some o -> h' !! l' = Some o).
Proof. apply h_swap_columns_run. Qed.

Lemma swap_columns_in_place_witness :
  sample_store !! 0%nat = Some (OList (map VRef [1%nat])) /\
  Forall2 (row_of sample_store) [1%nat] [[PyFloat 1; PyFloat 2]] /\
  NoDup [1%nat] /\
  Forall (fun y : list pynum =>
            valid_index (length y) 0 /\ valid_index (length y) 1)
         [[PyFloat 1; PyFloat 2]] /\
  exists h' l,
    h_swap_columns 0%nat 0 1 sample_store = (h', inr l) /\
    row_of h' 1%nat [PyFloat 2; PyFloat 1].
Proof.
  assert (Hp : sample_store !! 0%nat = Some (OList (map VRef [1%nat])))
    by reflexivity.
  assert (Hrows : Forall2 (row_of sample_store) [1%nat]
                    [[PyFloat 1; PyFloat 2]])
    by (repeat constructor).
  assert (Hnd : NoDup [1%nat]) by (apply NoDup_singleton).
  assert (Hvalid : Forall (fun y : list pynum =>
                     valid_index (length y) 0 /\ valid_index (length y) 1)
                          [[PyFloat 1; PyFloat 2]])
    by (repeat constructor; unfold valid_index; simpl; lia).
  repeat (split; [assumption |]).
  destruct (swap_columns_in_place sample_store 0%nat [1%nat]
              [[PyFloat 1; PyFloat 2]] 0 1 Hp Hrows Hnd Hvalid)
    as (h' & l & Hrun & _ & _ & _ & Hswapped & _).
  exists h', l. split; [exact Hrun |].
  inversion Hswapped as [| ? ? ? ? Hrow _]; subst. exact Hrow.
Defined.

Lemma nth_error_lookup {A : Type} (l : list A) (i : nat) :
  nth_error l i = l !! i.
Proof.
  revert i. induction l as [| a l IH]; intros [| i]; simpl; auto.
Qed.

Lemma length_swap_items {A : Type} (c0 c1 : Z) (y : list A) :
  length (swap_items c0 c1 y) = length y.
Proof.
  unfold swap_items.
  destruct (nth_error y _); [| reflexivity].
  destruct (nth_error y _); [| reflexivity].
  rewrite !length_insert. reflexivity.
Qed.

Lemma swap_items_involutive {A : Type} (c0 c1 : Z) (y : list A) :
  swap_items c0 c1 (swap_items c0 c1 y) = y.
Proof.
  unfold swap_items at 1. rewrite !length_swap_items.
  unfold swap_items. rewrite !nth_error_lookup.
  set (p0 := position (length y) c0). set (p1 := position (length y) c1).
  destruct (y !! p0) as [a0 |] eqn:H0.
  2:{ rewrite H0. reflexivity. }
  destruct (y !! p1) as [a1 |] eqn:H1.
  2:{ rewrite H0, H1. reflexivity. }
  pose proof (lookup_lt_Some _ _ _ H0) as Hp0.
  pose proof (lookup_lt_Some _ _ _ H1) as Hp1.
  assert (Hy1 : <[p1 := a0]> (<[p0 := a1]> y) !! p1 = Some a0)
    by (apply list_lookup_insert_eq; rewrite length_insert; exact Hp1).
  assert (Hy0 : <[p1 := a0]> (<[p0 := a1]> y) !! p0 =
                Some (if decide (p0 = p1) then a0 else a1)).
  { destruct (decide (p0 = p1)) as [-> | Hne].
    - exact Hy1.
    - rewrite list_lookup_insert_ne by congruence.
      apply list_lookup_insert_eq. exact Hp0. }
  rewrite Hy0, Hy1. apply list_eq. intros i.
  destruct (decide (i = p1)) as [-> | Hi1].
  - rewrite list_lookup_insert_eq by (rewrite !length_insert; exact Hp1).
    rewrite H1. destruct (decide (p0 = p1)) as [Heq | _]; [| reflexivity].
    rewrite Heq in H0. congruence.
  - rewrite list_lookup_insert_ne by congruence.
    destruct (decide (i = p0)) as [-> | Hi0].
    + rewrite list_lookup_insert_eq by (rewrite !length_insert; exact Hp0).
      rewrite H0. reflexivity.
    + rewrite !list_lookup_insert_ne by congruence. reflexivity.
Qed.

(** X15.  Swapping twice restores the caller's data: [swap_columns] applied
    to the collection the first call returned puts every row of the caller
    back as it was. *)
Theorem swap_columns_twice
    (h : gmap loc object) (points : loc) (rs : list loc)
    (ys : list (list pynum)) (c0 c1 : Z) :
  h !! points = Some (OList (map VRef rs)) ->
  Forall2 (row_of h) rs ys ->
  NoDup rs ->
  Forall (fun y => valid_index (length y) c0 /\ valid_index (length y) c1)
         ys ->
  exists h1 l1 h2 l2,
    h_swap_columns points c0 c1 h = (h1, inr l1) /\
    h_swap_columns l1 c0 c1 h1 = (h2, inr l2) /\
    Forall2 (row_of h2) rs ys.
Proof.
  intros Hp Hrows Hnd Hvalid.
  destruct (h_swap_columns_run h points rs ys c0 c1 Hp Hrows Hnd Hvalid)
    as (h1 & l1 & Hrun1 & _ & Hl1 & _ & Hrows1 & _).
  assert (Hvalid1 : Forall (fun y : list pynum =>
                      valid_index (length y) c0 /\ valid_index (length y) c1)
                           (map (swap_items c0 c1) ys)).
  { apply Forall_map. eapply List.Forall_impl; [| exact Hvalid].
    intros y Hy. simpl. rewrite length_swap_items. exact Hy. }
  destruct (h_swap_columns_run h1 l1 rs _ c0 c1 Hl1 Hrows1 Hnd Hvalid1)
    as (h2 & l2 & Hrun2 & _ & _ & _ & Hrows2 & _).
  exists h1, l1, h2, l2. split; [exact Hrun1 |]. split; [exact Hrun2 |].
  assert (Hback : map (swap_items c0 c1) (map (swap_items c0 c1) ys) = ys).
  { rewrite map_map. rewrite <- (map_id ys) at 2. apply map_ext.
    intros y. apply swap_items_involutive. }
  rewrite Hback in Hrows2. exact Hrows2.
Qed.

Lemma swap_columns_twice_witness :
  sample_store !! 0%nat = Some (OList (map VRef [1%nat])) /\
  Forall2 (row_of sample_store) [1%nat] [[PyFloat 1; PyFloat 2]] /\
  NoDup [1%nat] /\
  Forall (fun y : list pynum =>
            valid_index (length y) 0 /\ valid_index (length y) 1)
         [[PyFloat 1; PyFloat 2]] /\
  exists h1 l1 h2 l2,
    h_swap_columns 0%nat 0 1 sample_store = (h1, inr l1) /\
    h_swap_columns l1 0 1 h1 = (h2, inr l2) /\
    row_of h2 1%nat [PyFloat 1; PyFloat 2].
Proof.
  assert (Hp : sample_store !! 0%nat = Some (OList (map VRef [1%nat])))
    by reflexivity.
  assert (Hrows : Forall2 (row_of sample_store) [1%nat]
                    [[PyFloat 1; PyFloat 2]])
    by (repeat constructor).
  assert (Hnd : NoDup [1%nat]) by (apply NoDup_singleton).
  assert (Hvalid : Forall (fun y : list pynum =>
                     valid_index (length y) 0 /\ valid_index (length y) 1)
                          [[PyFloat 1; PyFloat 2]])
    by (repeat constructor; unfold valid_index; simpl; lia).
  repeat (split; [assumption |]).
  destruct (swap_columns_twice sample_store 0%nat [1%nat]
              [[PyFloat 1; PyFloat 2]] 0 1 Hp Hrows Hnd Hvalid)
    as (h1 & l1 & h2 & l2 & Hrun1 & Hrun2 & Hback).
  exists h1, l1, h2, l2. split; [exact Hrun1 |]. split; [exact Hrun2 |].
  inversion Hback as [| ? ? ? ? Hrow _]; subst. exact Hrow.
Defined.

(** ** The planar position of one point *)

(** X16.  The [(u, v)] of an index depends on its own point and on the
    length of the first point only: another layer structure, [n_layers],
    [zgap], or other values for the other points give the same [(u, v)]. *)
Theorem planar_position_local
    (md : mode) (m : nat) (points points' : list (list R))
    (layers layers' : list (list Z)) (nl nl' : Z) (z z' : R)
    (idx : Z) (x : list R) :
  well_formed m points layers ->
  well_formed m points' layers' ->
  idx ∈ concat layers ->
  idx ∈ concat layers' ->
  py_getitem points idx = inr x ->
  py_getitem points' idx = inr x ->
  exists pc pc' u v w w',
    palettize_mode md points layers nl z = inr pc /\
    palettize_mode md points' layers' nl' z' = inr pc' /\
    pc !! idx = Some [u; v; w] /\
    pc' !! idx = Some [u; v; w'].
Proof.
  intros (Hne & Hdim & Hlayers) (Hne' & Hdim' & Hlayers') Hin Hin' Hx Hx'.
  destruct (palettize_mode_returns md m points layers nl z
              Hdim Hne Hlayers) as (stf & _ & Hwalk & Hrun).
  destruct (palettize_mode_returns md m points' layers' nl' z'
              Hdim' Hne' Hlayers') as (stf' & _ & Hwalk' & Hrun').
  destruct (palettize_mode_entry md m points layers nl z Hdim Hne
              Hlayers stf idx Hwalk Hin) as (x0 & w & Hx0 & _ & He).
  destruct (palettize_mode_entry md m points' layers' nl' z' Hdim' Hne'
              Hlayers' stf' idx Hwalk' Hin') as (x1 & w' & Hx1 & _ & He').
  assert (x0 = x) by congruence. assert (x1 = x) by congruence. subst.
  exists (palette_coords stf), (palette_coords stf').
  do 2 eexists. exists w, w'. eauto.
Qed.

Lemma planar_position_local_witness :
  well_formed 2 [[1; 3]; [0; 1]] [[0; 1]%Z] /\
  well_formed 2 [[1; 3]; [5; 5]; [2; 2]] [[2]; [1]; [0]]%Z /\
  exists pc pc' u v w w',
    palettize [[1; 3]; [0; 1]] [[0; 1]%Z] 0 1 = inr pc /\
    palettize [[1; 3]; [5; 5]; [2; 2]] [[2]; [1]; [0]]%Z 2 3 = inr pc' /\
    pc !! 0%Z = Some [u; v; w] /\
    pc' !! 0%Z = Some [u; v; w'].
Proof.
  assert (Hwf : well_formed 2 [[1; 3]; [0; 1]] [[0; 1]%Z]).
  { repeat split; [discriminate | repeat constructor |].
    repeat constructor; unfold valid_index; simpl; lia. }
  assert (Hwf' : well_formed 2 [[1; 3]; [5; 5]; [2; 2]] [[2]; [1]; [0]]%Z).
  { repeat split; [discriminate | repeat constructor |].
    repeat constructor; unfold valid_index; simpl; lia. }
  split; [exact Hwf |]. split; [exact Hwf' |].
  apply (planar_position_local Default 2 _ _ _ _ 0 2 1 3 0 [1; 3] Hwf Hwf').
  - simpl. apply list_elem_of_In. simpl. auto.
  - simpl. apply list_elem_of_In. simpl. auto.
  - reflexivity.
  - reflexivity.
Defined.

Lemma radial_zeros (trig : R -> R) (m : nat) (f : list R) :
  Forall (fun c => c = 0) f -> radial trig m f = 0 /\ sum_R f = 0.
Proof.
  intros Hz. split.
  - unfold radial.
    rewrite (sum_R_ext _ (fun _ => 0)).
    + induction (seq 0 m) as [| i l IH]; simpl; [reflexivity | lra].
    + intros i _.
      assert (Hn : nth i f 0 = 0).
      { destruct (Nat.lt_ge_cases i (length f)) as [Hlt | Hge].
        - rewrite List.Forall_forall in Hz. apply Hz, nth_In, Hlt.
        - apply nth_overflow, Hge. }
      rewrite Hn. ring.
  - induction Hz as [| c f -> _ IH]; simpl; [reflexivity | lra].
Qed.

(** X17.  The points sent to the centre: a point with all coordinates 0.0
    in the normalized and logistic variants, and a point with all
    coordinates 1.0 in the polar variant, get [(u, v) = (0, 0)] exactly. *)
Theorem centre_points
    (md : mode) (m : nat) (points : list (list R)) (layers : list (list Z))
    (nl : Z) (z : R) (idx : Z) (x : list R) :
  well_formed m points layers ->
  idx ∈ concat layers ->
  py_getitem points idx = inr x ->
  Forall (fun c => c = match md with Polar => 1 | _ => 0 end) x ->
  exists pc w,
    palettize_mode md points layers nl z = inr pc /\
    pc !! idx = Some [0; 0; w].
Proof.
  intros (Hne & Hdim & Hlayers) Hin Hx Hall.
  destruct (palettize_mode_returns md m points layers nl z
              Hdim Hne Hlayers) as (stf & _ & Hwalk & Hrun).
  destruct (palettize_mode_entry md m points layers nl z Hdim Hne
              Hlayers stf idx Hwalk Hin) as (x0 & w & Hx0 & _ & He).
  assert (x0 = x) by congruence. subst x0.
  exists (palette_coords stf), w. split; [exact Hrun |].
  assert (Hz : Forall (fun c => c = 0) (preprocessed md m x)).
  { destruct md; simpl; apply Forall_map;
      (eapply List.Forall_impl; [| exact Hall]); intros c ->; simpl.
    - unfold default_power. destruct (3 <? m)%nat; simpl; ring.
    - unfold polar_power. destruct (3 <? m)%nat; simpl; ring.
    - apply remap_0. }
  destruct (radial_zeros cos m _ Hz) as [Hc Hs].
  destruct (radial_zeros sin m _ Hz) as [Hs' _].
  rewrite He. clear He Hz Hall. revert Hc Hs Hs'.
  generalize (preprocessed md m x). intros f Hc Hs Hs'.
  assert (Huv : uv_of md m f = (0, 0)).
  { destruct md; unfold uv_of; rewrite ?Hc, ?Hs'; try reflexivity;
      (destruct (Rlt_dec 0 (sum_R f)); [lra | reflexivity]). }
  rewrite Huv. reflexivity.
Qed.

Lemma centre_points_witness :
  well_formed 3 [[1; 1; 1]; [0; 0.5; 1]] [[0; 1]%Z] /\
  Forall (fun c => c = 1) [1; 1; 1] /\
  exists pc w,
    palettize_polar [[1; 1; 1]; [0; 0.5; 1]] [[0; 1]%Z] 0 1 = inr pc /\
    pc !! 0%Z = Some [0; 0; w].
Proof.
  assert (Hwf : well_formed 3 [[1; 1; 1]; [0; 0.5; 1]] [[0; 1]%Z]).
  { repeat split; [discriminate | repeat constructor |].
    repeat constructor; unfold valid_index; simpl; lia. }
  assert (Hall : Forall (fun c => c = 1) [1; 1; 1])
    by (repeat constructor).
  split; [exact Hwf |]. split; [exact Hall |].
  apply (centre_points Polar 3 _ _ 0 1 0 [1; 1; 1] Hwf).
  - simpl. apply list_elem_of_In. simpl. auto.
  - reflexivity.
  - exact Hall.
Defined.
